(** * RSA demonstration over the BearcatII alphabet: model and properties

    A shallow embedding of [assignment.py].  Python integers are unbounded,
    so they are [Z]; Python's [%] and [//] are floor modulo and floor
    division, which is what [Z.modulo] and [Z.div] compute when the divisor
    is not zero (Python raises [ZeroDivisionError] there, Rocq returns a
    default, so every unguarded division goes through [py_mod]/[py_div]).
    Exceptions are an explicit outcome, [while] loops take a bound on their
    number of iterations, and the calls to [random] read a tape of raw
    draws. *)

From Stdlib Require Import ZArith Znumtheory Zpow_facts Lia List Bool Ascii String.
From Stdlib Require Import DecimalString Zmod.ZmodInv.
From Equations Require Import Equations.
Import ListNotations.

Local Open Scope Z_scope.

(** ** Outcomes of a Python call *)

Inductive exn : Type :=
| IndexError
| ValueError
| ZeroDivisionError
| Exception
| EOFError.

Inductive result (A : Type) : Type :=
| Ok (a : A)
| Raise (e : exn)
| OutOfFuel.

Arguments Ok {A} a.
Arguments Raise {A} e.
Arguments OutOfFuel {A}.

Definition bind {A B : Type} (m : result A) (k : A -> result B) : result B :=
  match m with
  | Ok a => k a
  | Raise e => Raise e
  | OutOfFuel => OutOfFuel
  end.

Declare Scope py_scope.
Delimit Scope py_scope with py.
Notation "x <- m ;; k" := (bind m (fun x => k))
  (at level 61, m at next level, right associativity) : py_scope.
Local Open Scope py_scope.

(** [a % b] and [a // b] on Python integers. *)
Definition py_mod (a b : Z) : result Z :=
  if b =? 0 then Raise ZeroDivisionError else Ok (a mod b).

Definition py_div (a b : Z) : result Z :=
  if b =? 0 then Raise ZeroDivisionError else Ok (a / b).

(** [l[i]] on a Python list: a negative index counts from the end. *)
Definition py_getitem {A : Type} (l : list A) (i : Z) : result A :=
  let len := Z.of_nat (List.length l) in
  let j := if i <? 0 then i + len else i in
  if (j <? 0) || (len <=? j) then Raise IndexError
  else match nth_error l (Z.to_nat j) with
       | Some x => Ok x
       | None => Raise IndexError
       end.

(** ** The BearcatII alphabet *)

Definition characters : list string :=
  ["A"; "B"; "C"; "D"; "E"; "F"; "G"; "H"; "I"; "J"; "K"; "L"; "M";
   "N"; "O"; "P"; "Q"; "R"; "S"; "T"; "U"; "V"; "W"; "X"; "Y"; "Z"]%string.

Definition len_characters : Z := Z.of_nat (List.length characters).

Definition get_character_from_index (index : Z) : result string :=
  if len_characters <? index then Raise IndexError
  else py_getitem characters (index - 1).

(** The [for index in range(len(characters))] scan, from position [index]. *)
Fixpoint scan_characters (cs : list string) (index : Z) (character : string)
  : result Z :=
  match cs with
  | [] => Raise Exception
  | c :: cs' =>
      if String.eqb c character then Ok (index + 1)
      else scan_characters cs' (index + 1) character
  end.

Definition get_index_from_character (character : string) : result Z :=
  scan_characters characters 0 character.

(** ** Number theory *)

Equations? euclid_gcd (a b : Z) : Z by wf (Z.abs_nat b) lt :=
  euclid_gcd a b with Z.eq_dec b 0 := {
    | left _ => a
    | right _ => euclid_gcd b (a mod b) }.
Proof.
  pose proof (Z.mod_bound_or a b n). lia.
Qed.

Equations? extended_euclid_gcd (a b : Z) : Z * Z * Z by wf (Z.abs_nat b) lt :=
  extended_euclid_gcd a b with Z.eq_dec b 0 := {
    | left _ => (a, 1, 0)
    | right _ =>
        let '(g, s, t) := extended_euclid_gcd b (a mod b) in
        let q := a / b in
        (g, t, s - q * t) }.
Proof.
  pose proof (Z.mod_bound_or a b n). lia.
Qed.

(** The recursion of [powers] is on the exponent: a negative exponent is
    negated once, a positive one is halved. *)
Definition powers_measure (n : Z) : nat :=
  if n <? 0 then S (Z.abs_nat n) else Z.abs_nat n.

Equations? powers (a n k : Z) : result Z by wf (powers_measure n) lt :=
  powers a n k with Z.eq_dec n 0 := {
    | left _ => py_mod 1 k
    | right _ with Z.eq_dec n 1 := {
      | left _ => py_mod a k
      | right _ with Z_lt_dec n 0 := {
        | left _ =>
            let '(g, s, _) := extended_euclid_gcd a k in
            if negb (g =? 1) then Raise ValueError
            else bind (py_mod s k) (fun sk => powers sk (- n) k)
        | right _ with Z.eq_dec (n mod 2) 0 := {
          | left _ =>
              bind (py_mod (a * a) k) (fun aa => powers aa (n / 2) k)
          | right _ =>
              bind (py_mod (a * a) k) (fun aa =>
              bind (powers aa ((n - 1) / 2) k) (fun r =>
              py_mod (a * r) k)) } } } }.
Proof.
  all: unfold powers_measure.
  - destruct (Z.ltb_spec n 0), (Z.ltb_spec (- n) 0); lia.
  - assert (0 < n / 2 < n) by (split; [apply Z.div_str_pos | apply Z.div_lt]; lia).
    destruct (Z.ltb_spec n 0), (Z.ltb_spec (n / 2) 0); lia.
  - assert (0 <= (n - 1) / 2 < n)
      by (split; [apply Z.div_pos | apply Z.div_lt_upper_bound]; lia).
    destruct (Z.ltb_spec n 0), (Z.ltb_spec ((n - 1) / 2) 0); lia.
Qed.

(** ** The random source

    [random] is a generator with hidden state.  Its state is a tape of raw
    draws and a cursor; [random.randint] and [random.choice] reduce the raw
    draw into the range they are asked for, so every tape is an admissible
    run and every value of the range is on some tape. *)

Record rng : Type := { tape : nat -> Z; cursor : nat }.

Definition raw_draw (r : rng) : Z := tape r (cursor r).
Definition advance (r : rng) : rng := {| tape := tape r; cursor := S (cursor r) |}.

Definition Rand (A : Type) : Type := rng -> result (A * rng).

Definition ret {A : Type} (a : A) : Rand A := fun r => Ok (a, r).

Definition bindR {A B : Type} (m : Rand A) (k : A -> Rand B) : Rand B :=
  fun r => match m r with
           | Ok (a, r') => k a r'
           | Raise e => Raise e
           | OutOfFuel => OutOfFuel
           end.

Definition lift {A : Type} (m : result A) : Rand A :=
  fun r => bind m (fun a => Ok (a, r)).

Notation "x <~ m ;; k" := (bindR m (fun x => k))
  (at level 61, m at next level, right associativity) : py_scope.

(** [random.randint(a, b)]: [ValueError] on an empty range. *)
Definition get_random_int_between (a b : Z) : Rand Z :=
  fun r => if b <? a then Raise ValueError
           else Ok (a + raw_draw r mod (b - a + 1), advance r).

(** [random.choice(seq)]: [IndexError] on an empty sequence. *)
Definition random_choice {A : Type} (seq : list A) : Rand A :=
  fun r => match seq with
           | [] => Raise IndexError
           | _ => x <- py_getitem seq (raw_draw r mod Z.of_nat (List.length seq)) ;;
                  Ok (x, advance r)
           end.

(** ** Primality test *)

(** The inner [while (k % 2) == 0] loop of one round: [Ok true] when the loop
    ends (by [break] or because [k] became odd), [Ok false] when the function
    returns [False] from inside it. *)
Fixpoint halving_loop (fuel : nat) (a n k : Z) : result bool :=
  match fuel with
  | O => OutOfFuel
  | S fuel' =>
      if k mod 2 =? 0 then
        let k := k / 2 in
        x <- powers a k n ;;
        if x =? n - 1 then Ok true
        else if negb (x =? 1) then Ok false
        else halving_loop fuel' a n k
      else Ok true
  end.

(** The body of the [for] loop: [false] is the early [return False]. *)
Definition miller_rabin_round (fuel : nat) (n : Z) : Rand bool :=
  let k := n - 1 in
  a <~ get_random_int_between 2 (n - 2) ;;
  lift (x <- powers a k n ;;
        if negb (x =? 1) then Ok false
        else halving_loop fuel a n k).

Fixpoint miller_rabin_rounds (fuel : nat) (n : Z) (rounds : nat) : Rand bool :=
  match rounds with
  | O => ret true
  | S rounds' =>
      passed <~ miller_rabin_round fuel n ;;
      if passed then miller_rabin_rounds fuel n rounds' else ret false
  end.

Definition prime_test_miller_rabin (fuel : nat) (n iterations : Z) : Rand bool :=
  miller_rabin_rounds fuel n (Z.to_nat iterations).

(** ** Prime generation *)

(** [str(i)] on an integer. *)
Definition py_str (i : Z) : string := NilZero.string_of_int (Z.to_int i).

Definition digit_of_ascii (c : ascii) : option Z :=
  let code := Z.of_N (N_of_ascii c) in
  if (48 <=? code) && (code <=? 57) then Some (code - 48) else None.

Fixpoint int_of_digits (acc : Z) (s : string) : result Z :=
  match s with
  | EmptyString => Ok acc
  | String c s' =>
      match digit_of_ascii c with
      | Some d => int_of_digits (acc * 10 + d) s'
      | None => Raise ValueError
      end
  end.

(** [int(s)] on a string of decimal digits, the only strings the generator
    builds; the empty string and any other character are a [ValueError]. *)
Definition py_int (s : string) : result Z :=
  match s with
  | EmptyString => Raise ValueError
  | _ => int_of_digits 0 s
  end.

(** The generator expression [str(get_random_int_between(0, 9)) for _ in
    range(count)], drawn left to right. *)
Fixpoint draw_middle_digits (count : nat) : Rand (list string) :=
  match count with
  | O => ret []
  | S count' =>
      d <~ get_random_int_between 0 9 ;;
      rest <~ draw_middle_digits count' ;;
      ret (py_str d :: rest)
  end.

(** One candidate, as the body of the [while True] loop builds it. *)
Definition draw_candidate (n : Z) : Rand Z :=
  d <~ get_random_int_between 1 9 ;;
  let first_digit := py_str d in
  middle <~ draw_middle_digits (Z.to_nat (n - 2)) ;;
  let middle_digits := String.concat "" middle in
  last_digit <~ random_choice [1; 3; 7; 9] ;;
  lift (py_int (first_digit ++ middle_digits ++ py_str last_digit)).

Fixpoint generate_attempts (fuel : nat) (attempts : nat) (n : Z) : Rand Z :=
  match attempts with
  | O => fun _ => OutOfFuel
  | S attempts' =>
      prime <~ draw_candidate n ;;
      passed <~ prime_test_miller_rabin fuel prime 10 ;;
      if passed then ret prime else generate_attempts fuel attempts' n
  end.

Definition generate_n_digit_prime (fuel : nat) (n : Z) : Rand Z :=
  generate_attempts fuel fuel n.

(** ** Message codec *)

Fixpoint mapM {A B : Type} (f : A -> result B) (l : list A) : result (list B) :=
  match l with
  | [] => Ok []
  | x :: l' => y <- f x ;; ys <- mapM f l' ;; Ok (y :: ys)
  end.

(** Iterating a Python string yields its characters as one-character
    strings. *)
Fixpoint chars_of (message : string) : list string :=
  match message with
  | EmptyString => []
  | String c rest => String c EmptyString :: chars_of rest
  end.

Definition convert_to_bearcatii (message : string) : result (list Z) :=
  mapM get_index_from_character (chars_of message).

Definition convert_bearcatii_to_string (bearcatii : list Z) : result string :=
  cs <- mapM get_character_from_index bearcatii ;;
  Ok (String.concat "" cs).

Fixpoint convert_loop (fuel : nat) (value n : Z) (output : list Z)
  : result (list Z) :=
  match fuel with
  | O => OutOfFuel
  | S fuel' =>
      if value =? 0 then Ok output
      else
        d <- py_mod value n ;;
        value' <- py_div value n ;;
        convert_loop fuel' value' n (d :: output)
  end.

Definition convert_to_base_n (fuel : nat) (value n : Z) : result (list Z) :=
  convert_loop fuel value n [].

Definition horner_eval (coefficients : list Z) (value : Z) : Z :=
  fold_left (fun output coefficient => output * value + coefficient)
            coefficients 0.

Definition euler_totient (p q : Z) : Z := (p - 1) * (q - 1).

(** ** The demonstration *)

Record transcript : Type := {
  shown_p : Z;
  shown_q : Z;
  shown_n : Z;
  shown_M : string;
  shown_C : Z;
  shown_P : string
}.

(** The prompt loop: [keys] are the integers typed at the prompt, in order;
    running out of input is Python's [EOFError]. *)
Fixpoint read_public_key (keys : list Z) (phi : Z) : result Z :=
  match keys with
  | [] => Raise EOFError
  | e :: keys' =>
      if euclid_gcd e phi =? 1 then Ok e else read_public_key keys' phi
  end.

(** [rsa] from the point where the two primes are known. *)
Definition rsa_with_primes (fuel : nat) (p q : Z) (keys : list Z)
           (message : string) : result transcript :=
  let n := p * q in
  let phi := euler_totient p q in
  e <- read_public_key keys phi ;;
  message_to_bearcatii <- convert_to_bearcatii message ;;
  let bearcatii_to_decimal :=
    horner_eval message_to_bearcatii (len_characters + 1) in
  C <- powers bearcatii_to_decimal e n ;;
  let '(_, private_key, _) := extended_euclid_gcd e phi in
  decrypted <- powers C private_key n ;;
  decrypted_to_bearcatii <- convert_to_base_n fuel decrypted (len_characters + 1) ;;
  decrypted_message <- convert_bearcatii_to_string decrypted_to_bearcatii ;;
  Ok {| shown_p := p; shown_q := q; shown_n := n; shown_M := message;
        shown_C := C; shown_P := decrypted_message |}.

Definition NUMBER_OF_DIGITS_IN_PRIME : Z := 20.

Definition rsa (fuel : nat) (keys : list Z) (message : string) : Rand transcript :=
  p <~ generate_n_digit_prime fuel NUMBER_OF_DIGITS_IN_PRIME ;;
  q <~ generate_n_digit_prime fuel NUMBER_OF_DIGITS_IN_PRIME ;;
  lift (rsa_with_primes fuel p q keys message).

(** ** Vocabulary of the statements *)

(** Messages made of symbols of the alphabet only, as a check. *)
Definition is_character (c : string) : bool :=
  existsb (String.eqb c) characters.

Definition in_alphabet (message : string) : Prop :=
  forallb is_character (chars_of message) = true.

(** The [len(characters) + 1] that [rsa] passes as base. *)
Definition radix : Z := len_characters + 1.

(** The tape on which every raw draw is 0. *)
Definition tape0 : rng := {| tape := fun _ => 0; cursor := 0 |}.

(** Primality by trial division, to state examples on concrete primes. *)
Definition trial_division (p : Z) : bool :=
  (1 <? p) &&
  forallb (fun i => negb (p mod Z.of_nat i =? 0)) (seq 2 (Z.to_nat p - 2)).

(** What the negative branch of [powers] raises to the power [- n]: the
    coefficient [s] of the triple, reduced modulo [k]. *)
Definition modular_inverse (a k : Z) : Z :=
  snd (fst (extended_euclid_gcd a k)) mod k.

(** The power of [x] in the group of units modulo [n], for any integer
    exponent, given an inverse [y] of [x]. *)
Definition unit_power (x y e n : Z) : Z :=
  (if e <? 0 then y ^ (- e) else x ^ e) mod n.

(** * Properties *)

(** ** Unfolding equations in the shape of the source *)

Lemma euclid_gcd_eqn (a b : Z) :
  euclid_gcd a b = if b =? 0 then a else euclid_gcd b (a mod b).
Proof.
  rewrite euclid_gcd_equation_1.
  destruct (Z.eq_dec b 0) as [Hb | Hb]; cbn.
  - apply Z.eqb_eq in Hb. now rewrite Hb.
  - apply Z.eqb_neq in Hb. now rewrite Hb.
Qed.

Lemma extended_euclid_gcd_eqn (a b : Z) :
  extended_euclid_gcd a b =
  if b =? 0 then (a, 1, 0)
  else let '(g, s, t) := extended_euclid_gcd b (a mod b) in
       (g, t, s - (a / b) * t).
Proof.
  rewrite extended_euclid_gcd_equation_1.
  destruct (Z.eq_dec b 0) as [Hb | Hb]; cbn.
  - apply Z.eqb_eq in Hb. now rewrite Hb.
  - apply Z.eqb_neq in Hb. now rewrite Hb.
Qed.

Lemma powers_eqn (a n k : Z) :
  powers a n k =
  if n =? 0 then py_mod 1 k
  else if n =? 1 then py_mod a k
  else if n <? 0 then
    let '(g, s, _) := extended_euclid_gcd a k in
    if negb (g =? 1) then Raise ValueError
    else sk <- py_mod s k ;; powers sk (- n) k
  else if n mod 2 =? 0 then
    aa <- py_mod (a * a) k ;; powers aa (n / 2) k
  else
    aa <- py_mod (a * a) k ;;
    r <- powers aa ((n - 1) / 2) k ;;
    py_mod (a * r) k.
Proof.
  rewrite powers_equation_1.
  destruct (Z.eq_dec n 0) as [H0 | H0]; cbn.
  { now rewrite (proj2 (Z.eqb_eq n 0) H0). }
  rewrite (proj2 (Z.eqb_neq n 0) H0).
  destruct (Z.eq_dec n 1) as [H1 | H1]; cbn.
  { now rewrite (proj2 (Z.eqb_eq n 1) H1). }
  rewrite (proj2 (Z.eqb_neq n 1) H1).
  destruct (Z_lt_dec n 0) as [Hneg | Hneg]; cbn.
  { now rewrite (proj2 (Z.ltb_lt n 0) Hneg). }
  rewrite (proj2 (Z.ltb_nlt n 0) Hneg).
  destruct (Z.eq_dec (n mod 2) 0) as [He | He]; cbn.
  { now rewrite (proj2 (Z.eqb_eq (n mod 2) 0) He). }
  now rewrite (proj2 (Z.eqb_neq (n mod 2) 0) He).
Qed.

(** ** Alphabet lookup *)

Lemma get_character_from_index_above (index : Z) :
  26 < index -> get_character_from_index index = Raise IndexError.
Proof.
  intros H. unfold get_character_from_index.
  replace (len_characters <? index) with true; [reflexivity |].
  symmetry. apply Z.ltb_lt. exact H.
Qed.

Lemma get_character_from_index_below (index : Z) :
  index < -25 -> get_character_from_index index = Raise IndexError.
Proof.
  intros H. unfold get_character_from_index, py_getitem.
  change len_characters with 26. change (Z.of_nat (List.length characters)) with 26.
  destruct (Z.ltb_spec 26 index); [reflexivity |].
  destruct (Z.ltb_spec (index - 1) 0); [| lia].
  destruct (Z.ltb_spec (index - 1 + 26) 0); [reflexivity | lia].
Qed.

(** C6: the lookup returns "A" at 1 and "Z" at 26 and rejects 27, but at
    position 0 the guard [index > len(characters)] lets the index through,
    and [characters[-1]] is the last symbol: 0 yields "Z" instead of the
    [IndexError] that the docstring announces. *)
Theorem get_character_from_index_zero_wraps :
  get_character_from_index 1 = Ok "A"%string /\
  get_character_from_index 26 = Ok "Z"%string /\
  get_character_from_index 27 = Raise IndexError /\
  get_character_from_index 0 = Ok "Z"%string.
Proof. repeat split; reflexivity. Qed.

(** Every position from -25 to 0 is accepted and wraps around. *)
Lemma get_character_from_index_wraps (index : Z) :
  -25 <= index <= 0 ->
  get_character_from_index index = get_character_from_index (index + 26).
Proof.
  intros H.
  assert (Hcases : In index (map (fun i => Z.of_nat i - 25) (seq 0 26))).
  { apply in_map_iff. exists (Z.to_nat (index + 25)). split; [lia |].
    apply in_seq. lia. }
  cbn in Hcases.
  repeat (destruct Hcases as [<- | Hcases]; [reflexivity |]).
  destruct Hcases.
Qed.

(** ** Euclid's algorithm *)

Lemma euclid_gcd_abs (a b : Z) : Z.abs (euclid_gcd a b) = Z.gcd a b.
Proof.
  funelim (euclid_gcd a b).
  - subst b. symmetry. apply Z.gcd_0_r.
  - match goal with IH : Z.abs _ = Z.gcd _ _ |- _ => rewrite IH end.
    rewrite Z.gcd_comm, Z.gcd_mod by assumption. apply Z.gcd_comm.
Qed.

Lemma euclid_gcd_nonneg (a b : Z) : 0 <= a -> 0 <= b -> 0 <= euclid_gcd a b.
Proof.
  funelim (euclid_gcd a b); intros Ha Hb.
  - assumption.
  - match goal with IH : _ -> _ -> 0 <= euclid_gcd _ _ |- _ => apply IH end.
    + assumption.
    + apply Z.mod_pos_bound. lia.
Qed.

Lemma euclid_gcd_pos_divisor (a b : Z) : 0 < b -> euclid_gcd a b = Z.gcd a b.
Proof.
  intros Hb.
  rewrite <- euclid_gcd_abs, euclid_gcd_eqn.
  destruct (Z.eqb_spec b 0) as [-> | _]; [lia |].
  assert (Hr : 0 <= a mod b) by (apply Z.mod_pos_bound; exact Hb).
  pose proof (euclid_gcd_nonneg b (a mod b) ltac:(lia) Hr). lia.
Qed.

Lemma euclid_gcd_nonpos (a b : Z) : b < 0 -> euclid_gcd a b <= 0.
Proof.
  remember (Z.abs_nat b) as m eqn:Hm. revert a b Hm.
  induction m as [m IH] using lt_wf_ind. intros a b Hm Hb.
  rewrite euclid_gcd_eqn.
  destruct (Z.eqb_spec b 0) as [-> | _]; [lia |].
  pose proof (Z.mod_neg_bound a b Hb) as Hr.
  destruct (Z.eq_dec (a mod b) 0) as [Hz | Hnz].
  - rewrite Hz, euclid_gcd_eqn. cbn. lia.
  - apply (IH (Z.abs_nat (a mod b))); lia.
Qed.

Lemma euclid_gcd_neg_divisor (a b : Z) : b < 0 -> euclid_gcd a b = - Z.gcd a b.
Proof.
  intros Hb. pose proof (euclid_gcd_nonpos a b Hb).
  pose proof (euclid_gcd_abs a b). lia.
Qed.

(** C9 (as amended): for all integers the absolute value of the result is
    the gcd; the result is the non-negative gcd itself when the second
    argument is positive, whatever the sign of the first, and when the
    second is 0 and the first is non-negative; and [euclid_gcd a 0] is [a]
    itself, whatever its sign. *)
Theorem euclid_gcd_correct_up_to_sign (a b : Z) :
  Z.abs (euclid_gcd a b) = Z.gcd a b /\
  (0 < b \/ (b = 0 /\ 0 <= a) ->
   euclid_gcd a b = Z.gcd a b /\ 0 <= euclid_gcd a b) /\
  euclid_gcd a 0 = a.
Proof.
  split; [apply euclid_gcd_abs |]. split.
  - intros [Hb | [-> Ha]].
    + rewrite euclid_gcd_pos_divisor by assumption.
      split; [reflexivity | apply Z.gcd_nonneg].
    + pose proof (euclid_gcd_nonneg a 0 Ha ltac:(lia)).
      pose proof (euclid_gcd_abs a 0). lia.
  - rewrite euclid_gcd_eqn. reflexivity.
Qed.

Lemma euclid_gcd_correct_up_to_sign_witness :
  euclid_gcd (-7) 3120 = Z.gcd (-7) 3120 /\ 0 <= euclid_gcd (-7) 3120.
Proof.
  apply (proj1 (proj2 (euclid_gcd_correct_up_to_sign (-7) 3120))).
  left. lia.
Defined.

(** C9 (as stated) fails: on a negative first argument and 0 the result is
    the negative argument, so it cannot both be non-negative and equal
    [a]; a negative divisor also yields a negative result. *)
Lemma euclid_gcd_negative_result :
  ~ (forall a b : Z,
        euclid_gcd a b = Z.gcd a b /\ 0 <= euclid_gcd a b /\ euclid_gcd a 0 = a).
Proof.
  intros H. destruct (H (-4) 0) as (_ & Hnn & _).
  vm_compute in Hnn. apply Hnn. reflexivity.
Qed.

Example euclid_gcd_negative_divisor : euclid_gcd 4 (-6) = -2.
Proof. reflexivity. Qed.

(** ** Extended Euclid *)

Lemma extended_euclid_gcd_fst (a b : Z) :
  fst (fst (extended_euclid_gcd a b)) = euclid_gcd a b.
Proof.
  funelim (extended_euclid_gcd a b).
  - subst b. rewrite euclid_gcd_eqn. reflexivity.
  - rewrite (euclid_gcd_eqn a b).
    destruct (Z.eqb_spec b 0) as [E | _]; [contradiction |].
    destruct (extended_euclid_gcd b (a mod b)) as [[g s] t]. cbn in *.
    assumption.
Qed.

Lemma extended_euclid_gcd_bezout (a b g s t : Z) :
  extended_euclid_gcd a b = (g, s, t) -> s * a + t * b = g.
Proof.
  revert g s t. funelim (extended_euclid_gcd a b); intros g s t E.
  - inversion E. subst. ring.
  - destruct (extended_euclid_gcd b (a mod b)) as [[g' s'] t'] eqn:Er.
    cbn in E. inversion E. subst.
    match goal with IH : forall _ _ _, _ = _ -> _ |- _ =>
      specialize (IH _ _ _ eq_refl) end.
    rewrite Z.mod_eq in * by assumption. lia.
Qed.

(** C5: on non-negative arguments the triple is [(gcd a b, s, t)] with
    [s * a + t * b = gcd a b]; [b = 0] gives [(a, 1, 0)], and for [b <> 0]
    the triple [(g, s, t)] of [(b, a mod b)] becomes
    [(g, t, s - (a / b) * t)]. *)
Theorem extended_euclid_gcd_correct (a b : Z) :
  0 <= a -> 0 <= b ->
  (exists g s t,
      extended_euclid_gcd a b = (g, s, t) /\
      g = Z.gcd a b /\ s * a + t * b = g) /\
  extended_euclid_gcd a 0 = (a, 1, 0) /\
  (b <> 0 ->
   forall g s t,
     extended_euclid_gcd b (a mod b) = (g, s, t) ->
     extended_euclid_gcd a b = (g, t, s - (a / b) * t)).
Proof.
  intros Ha Hb. split; [| split].
  - destruct (extended_euclid_gcd a b) as [[g s] t] eqn:E.
    exists g, s, t. split; [reflexivity |]. split.
    + pose proof (extended_euclid_gcd_fst a b) as Hg. rewrite E in Hg. cbn in Hg.
      pose proof (euclid_gcd_nonneg a b Ha Hb).
      pose proof (euclid_gcd_abs a b). lia.
    + apply extended_euclid_gcd_bezout. exact E.
  - rewrite extended_euclid_gcd_eqn. reflexivity.
  - intros Hnz g s t E. rewrite extended_euclid_gcd_eqn.
    destruct (Z.eqb_spec b 0) as [E0 | _]; [contradiction |].
    rewrite E. reflexivity.
Qed.

Lemma extended_euclid_gcd_correct_witness :
  exists g s t,
    extended_euclid_gcd 17 3120 = (g, s, t) /\
    g = Z.gcd 17 3120 /\ s * 17 + t * 3120 = g.
Proof.
  apply (proj1 (extended_euclid_gcd_correct 17 3120 ltac:(lia) ltac:(lia))).
Defined.

(** ** Modular exponentiation *)

Lemma py_mod_ok (a k : Z) : k <> 0 -> py_mod a k = Ok (a mod k).
Proof.
  intros Hk. unfold py_mod.
  destruct (Z.eqb_spec k 0); [contradiction | reflexivity].
Qed.

Lemma powers_nonneg (a n k : Z) :
  0 <= n -> k <> 0 -> powers a n k = Ok (a ^ n mod k).
Proof.
  intros Hn Hk. revert Hn a.
  pattern n. apply (well_founded_induction (Z.lt_wf 0)).
  clear n. intros n IH Hn a.
  rewrite powers_eqn.
  destruct (Z.eqb_spec n 0) as [-> | H0]; [now rewrite py_mod_ok |].
  destruct (Z.eqb_spec n 1) as [-> | H1];
    [now rewrite py_mod_ok, Z.pow_1_r |].
  destruct (Z.ltb_spec n 0) as [Hneg | _]; [lia |].
  rewrite (py_mod_ok (a * a)) by assumption. cbn [bind].
  destruct (Z.eqb_spec (n mod 2) 0) as [He | Ho].
  - assert (Hm : 0 <= n / 2 < n)
      by (split; [apply Z.div_pos | apply Z.div_lt]; lia).
    rewrite (IH (n / 2)) by lia. f_equal.
    rewrite Z.mod_pow_l, <- Z.pow_2_r, <- Z.pow_mul_r by lia.
    f_equal. f_equal. rewrite (Z.div_mod n 2) at 2 by lia. lia.
  - assert (Hodd : n mod 2 = 1) by (pose proof (Z.mod_pos_bound n 2); lia).
    assert (Hm : 0 <= (n - 1) / 2 < n)
      by (split; [apply Z.div_pos | apply Z.div_lt_upper_bound]; lia).
    rewrite (IH ((n - 1) / 2)) by lia. cbn [bind].
    rewrite py_mod_ok by assumption. f_equal.
    rewrite Z.mod_pow_l, Z.mul_mod_idemp_r by assumption.
    rewrite <- Z.pow_2_r, <- Z.pow_mul_r, <- Z.pow_succ_r by (try apply Z.mul_nonneg_nonneg; lia).
    f_equal. f_equal.
    assert (n - 1 = 2 * ((n - 1) / 2)).
    { apply Z.div_exact; [lia |].
      rewrite <- Zminus_mod_idemp_l, Hodd. reflexivity. }
    lia.
Qed.

(** C3: for an exponent [n >= 0] and a modulus [k >= 1], [powers a n k]
    returns [a ^ n mod k] (with [0 ^ 0 = 1]), a value of [[0, k)]. *)
Theorem powers_nonneg_exponent (a n k : Z) :
  0 <= n -> 1 <= k ->
  powers a n k = Ok (a ^ n mod k) /\ 0 <= a ^ n mod k < k /\
  powers 0 0 k = Ok (1 mod k).
Proof.
  intros Hn Hk. split; [apply powers_nonneg; lia |].
  split; [apply Z.mod_pos_bound; lia |].
  rewrite powers_eqn. cbn. apply py_mod_ok. lia.
Qed.

Lemma powers_nonneg_exponent_witness :
  powers 4 13 497 = Ok (4 ^ 13 mod 497) /\ 0 <= 4 ^ 13 mod 497 < 497 /\
  powers 0 0 497 = Ok (1 mod 497).
Proof.
  apply (powers_nonneg_exponent 4 13 497); lia.
Defined.

Lemma extended_euclid_gcd_pos_modulus (a k : Z) :
  1 <= k -> fst (fst (extended_euclid_gcd a k)) = Z.gcd a k.
Proof.
  intros Hk. rewrite extended_euclid_gcd_fst.
  apply euclid_gcd_pos_divisor. lia.
Qed.

Lemma powers_negative (a n k : Z) :
  n < 0 ->
  powers a n k =
  let '(g, s, _) := extended_euclid_gcd a k in
  if negb (g =? 1) then Raise ValueError
  else sk <- py_mod s k ;; powers sk (- n) k.
Proof.
  intros Hn. rewrite powers_eqn.
  destruct (Z.eqb_spec n 0); [lia |].
  destruct (Z.eqb_spec n 1); [lia |].
  destruct (Z.ltb_spec n 0); [reflexivity | lia].
Qed.

(** With a modulus [k >= 1] a negative exponent either raises the
    [ValueError] of the missing inverse, or returns the power of the
    Bezout coefficient. *)
Lemma powers_negative_pos_modulus (a n k : Z) :
  n < 0 -> 1 <= k ->
  (Z.gcd a k <> 1 /\ powers a n k = Raise ValueError) \/
  (Z.gcd a k = 1 /\
   powers a n k =
   Ok ((snd (fst (extended_euclid_gcd a k)) mod k) ^ (- n) mod k)).
Proof.
  intros Hn Hk. rewrite (powers_negative a n k Hn).
  pose proof (extended_euclid_gcd_pos_modulus a k Hk) as Hg.
  destruct (extended_euclid_gcd a k) as [[g s] t]. cbn in Hg. cbn [fst snd].
  subst g. destruct (Z.eqb_spec (Z.gcd a k) 1) as [E | E]; cbn [negb].
  - right. split; [exact E |].
    rewrite py_mod_ok by lia. cbn [bind].
    apply powers_nonneg; lia.
  - left. split; [exact E | reflexivity].
Qed.

(** C4 (as amended): for a negative exponent and a modulus [k >= 1],
    [powers] raises the [ValueError] of the missing inverse exactly when
    [gcd a k <> 1]; and for [k > 1] coprime to [a], [powers a (-1) k] is an
    inverse of [a] modulo [k]. *)
Theorem powers_negative_exponent (a n k : Z) :
  n < 0 -> 1 <= k ->
  (powers a n k = Raise ValueError <-> Z.gcd a k <> 1) /\
  (1 < k -> Z.gcd a k = 1 ->
   exists r, powers a (-1) k = Ok r /\ (r * a) mod k = 1).
Proof.
  intros Hn Hk. split.
  - destruct (powers_negative_pos_modulus a n k Hn Hk) as [[Hg E] | [Hg E]];
      rewrite E; split; try congruence; intros; assumption.
  - intros Hk1 Hg.
    destruct (powers_negative_pos_modulus a (-1) k ltac:(lia) Hk)
      as [[Hg' _] | [_ E]]; [contradiction |].
    eexists. split; [exact E |].
    destruct (extended_euclid_gcd a k) as [[g s] t] eqn:Ee. cbn [fst snd].
    pose proof (extended_euclid_gcd_bezout _ _ _ _ _ Ee) as Hbz.
    pose proof (extended_euclid_gcd_pos_modulus a k Hk) as Hfst.
    rewrite Ee in Hfst. cbn in Hfst.
    change (- -1) with 1. rewrite Z.pow_1_r, Z.mod_mod by lia.
    rewrite Z.mul_mod_idemp_l by lia.
    replace (s * a) with (1 + (- t) * k) by lia.
    rewrite Z.mod_add by lia. apply Z.mod_1_l. exact Hk1.
Qed.

Lemma powers_negative_exponent_witness :
  (powers 3 (-2) 7 = Raise ValueError <-> Z.gcd 3 7 <> 1) /\
  (exists r, powers 3 (-1) 7 = Ok r /\ (r * 3) mod 7 = 1).
Proof.
  pose proof (powers_negative_exponent 3 (-2) 7 ltac:(lia) ltac:(lia)) as H.
  split; [exact (proj1 H) | apply (proj2 H); [lia | reflexivity]].
Defined.

(** C4 (as stated, for every modulus) fails: with a negative modulus the
    first component of the triple is negative, so the guard [g != 1]
    raises although the two numbers are coprime. *)
Lemma powers_negative_modulus_always_raises :
  ~ (forall a n k : Z,
        n < 0 -> (powers a n k = Raise ValueError <-> Z.gcd a k <> 1)).
Proof.
  intros H. destruct (H 1 (-1) (-2) ltac:(lia)) as [Hraise _].
  apply Hraise; reflexivity.
Qed.

(** ** Message codec *)

Lemma alphabet_positions (c : string) :
  In c characters ->
  exists i, get_index_from_character c = Ok i /\ 1 <= i <= 26 /\
            get_character_from_index i = Ok c.
Proof.
  intros Hc. unfold characters in Hc. cbn [In] in Hc.
  repeat (destruct Hc as [<- | Hc];
          [eexists; split; [reflexivity | split; [lia | reflexivity]] |]).
  destruct Hc.
Qed.

Lemma is_character_In (c : string) :
  is_character c = true -> In c characters.
Proof.
  unfold is_character. intros H. apply existsb_exists in H as (x & Hx & E).
  apply String.eqb_eq in E. now subst.
Qed.

Lemma convert_to_bearcatii_ok (message : string) :
  in_alphabet message ->
  exists l, convert_to_bearcatii message = Ok l /\
            Forall (fun i => 1 <= i <= 26) l /\
            List.length l = String.length message /\
            mapM get_character_from_index l = Ok (chars_of message).
Proof.
  unfold in_alphabet, convert_to_bearcatii.
  induction message as [| c rest IH]; cbn [chars_of mapM String.length]; intros H.
  - exists []. repeat split; constructor.
  - cbn [forallb] in H. apply andb_true_iff in H as [Hc Hrest].
    apply is_character_In in Hc.
    destruct (alphabet_positions _ Hc) as (i & Ei & Hi & Eback).
    destruct (IH Hrest) as (l & El & Hl & Hlen & Eb).
    exists (i :: l). rewrite Ei, El. cbn [bind mapM List.length].
    rewrite Eback, Eb. cbn [bind].
    repeat split; try constructor; try assumption; lia.
Qed.

Lemma concat_chars_of (message : string) :
  String.concat "" (chars_of message) = message.
Proof.
  induction message as [| c rest IH]; [reflexivity |].
  cbn [chars_of String.concat].
  destruct (chars_of rest) eqn:E.
  - destruct rest; [reflexivity | discriminate].
  - cbn [String.append]. now rewrite IH.
Qed.

Lemma horner_eval_snoc (l : list Z) (d x : Z) :
  horner_eval (l ++ [d]) x = horner_eval l x * x + d.
Proof. unfold horner_eval. now rewrite fold_left_app. Qed.

Lemma horner_eval_nonneg (l : list Z) (x : Z) :
  0 <= x -> Forall (fun i => 0 <= i) l -> 0 <= horner_eval l x.
Proof.
  intros Hx. induction l as [| d l IH] using rev_ind; intros Hl.
  - cbn. lia.
  - rewrite horner_eval_snoc. apply Forall_app in Hl as [Hl Hd].
    inversion Hd; subst. specialize (IH Hl). nia.
Qed.

(** The digit loop undoes Horner evaluation when no digit is zero. *)
Lemma convert_loop_horner (n : Z) (l : list Z) :
  Forall (fun i => 1 <= i < n) l ->
  forall fuel output,
    (List.length l < fuel)%nat ->
    convert_loop fuel (horner_eval l n) n output = Ok (l ++ output).
Proof.
  induction l as [| d l IH] using rev_ind; intros Hl fuel output Hfuel.
  - destruct fuel; [cbn in Hfuel; lia | reflexivity].
  - apply Forall_app in Hl as [Hl Hd]. inversion Hd as [| ? ? Hd' _]; subst.
    rewrite length_app in Hfuel. cbn in Hfuel.
    destruct fuel as [| fuel]; [lia |].
    rewrite horner_eval_snoc. cbn [convert_loop].
    assert (Hh : 0 <= horner_eval l n).
    { apply horner_eval_nonneg; [lia |].
      eapply Forall_impl; [| exact Hl]. cbn. intros; lia. }
    destruct (Z.eqb_spec (horner_eval l n * n + d) 0) as [E | _]; [nia |].
    unfold py_mod, py_div.
    destruct (Z.eqb_spec n 0) as [E | _]; [lia |]. cbn [bind].
    rewrite Z.add_comm, Z.mod_add, Z.div_add, Z.mod_small, Z.div_small by lia.
    cbn [Z.add]. rewrite IH by (assumption || lia).
    now rewrite <- app_assoc.
Qed.

(** C2: a message of at least one symbol, all from the alphabet, is
    recovered exactly: its positions are evaluated by Horner at radix 27,
    the integer is split into base-27 digits, and each digit is mapped back
    to its character. *)
Theorem codec_round_trip (message : string) (fuel : nat) :
  in_alphabet message ->
  (1 <= String.length message)%nat ->
  (String.length message < fuel)%nat ->
  radix = 27 /\
  (positions <- convert_to_bearcatii message ;;
   digits <- convert_to_base_n fuel (horner_eval positions radix) radix ;;
   convert_bearcatii_to_string digits) = Ok message.
Proof.
  intros Halpha _ Hfuel. split; [reflexivity |].
  destruct (convert_to_bearcatii_ok message Halpha) as (l & El & Hl & Hlen & Eb).
  rewrite El. cbn [bind]. unfold convert_to_base_n.
  rewrite convert_loop_horner.
  - cbn [bind]. rewrite app_nil_r. unfold convert_bearcatii_to_string.
    rewrite Eb. cbn [bind]. now rewrite concat_chars_of.
  - eapply Forall_impl; [| exact Hl]. cbn. change radix with 27. intros; lia.
  - now rewrite Hlen.
Qed.

Lemma codec_round_trip_witness :
  radix = 27 /\
  (positions <- convert_to_bearcatii "HELLO" ;;
   digits <- convert_to_base_n 6 (horner_eval positions radix) radix ;;
   convert_bearcatii_to_string digits) = Ok "HELLO"%string.
Proof.
  apply (codec_round_trip "HELLO" 6).
  - reflexivity.
  - cbn. lia.
  - cbn. lia.
Defined.

(** ** The demonstration on the textbook key *)




(** The derived exponent is negative here, so decryption goes through the
    modular inverse, and a message that shares a factor with [n] makes the
    demonstration stop on the [ValueError] of [powers]. *)
Example rsa_textbook_key_BG :
  horner_eval [2; 7] radix = 61 /\
  rsa_with_primes 4 61 53 [17] "BG" = Raise ValueError.
Proof. split; reflexivity. Qed.

(** ** Primality test *)

Lemma get_random_int_between_range (a b v : Z) (r r' : rng) :
  get_random_int_between a b r = Ok (v, r') -> a <= v <= b.
Proof.
  unfold get_random_int_between. destruct (Z.ltb_spec b a); [discriminate |].
  intros E. inversion E; subst.
  pose proof (Z.mod_pos_bound (raw_draw r) (b - a + 1)). lia.
Qed.

Lemma get_random_int_between_ok (a b : Z) (r : rng) :
  a <= b -> exists v, get_random_int_between a b r = Ok (v, advance r).
Proof.
  intros H. unfold get_random_int_between.
  destruct (Z.ltb_spec b a); [lia |]. eexists. reflexivity.
Qed.

(** Every value of the range is drawn on some tape. *)
Lemma get_random_int_between_onto (a b v : Z) :
  a <= v <= b ->
  get_random_int_between a b {| tape := fun _ => v - a; cursor := 0 |} =
  Ok (v, {| tape := fun _ => v - a; cursor := 1 |}).
Proof.
  intros H. unfold get_random_int_between, raw_draw, advance. cbn.
  destruct (Z.ltb_spec b a); [lia |].
  rewrite Z.mod_small by lia. do 2 f_equal. lia.
Qed.

Lemma prime_test_miller_rabin_small (fuel : nat) (n iterations : Z) (r : rng) :
  n < 4 -> 1 <= iterations ->
  prime_test_miller_rabin fuel n iterations r = Raise ValueError.
Proof.
  intros Hn Hit. unfold prime_test_miller_rabin.
  destruct (Z.to_nat iterations) as [| rounds] eqn:E; [lia |].
  cbn [miller_rabin_rounds]. unfold bindR at 1.
  unfold miller_rabin_round, bindR, get_random_int_between.
  destruct (Z.ltb_spec (n - 2) 2); [reflexivity | lia].
Qed.

(** C7: the test is not total.  [random.randint(2, n - 2)] has an empty
    range for [n < 4], so already one iteration on the primes 2 and 3
    raises [ValueError] instead of returning a judgment; with no
    iteration at all the answer is [True]. *)
Theorem prime_test_miller_rabin_raises (fuel : nat) (r : rng) :
  prime_test_miller_rabin fuel 2 1 r = Raise ValueError /\
  prime_test_miller_rabin fuel 3 1 r = Raise ValueError /\
  prime_test_miller_rabin fuel 3 0 r = Ok (true, r).
Proof. repeat split. Qed.

Lemma log2_half (k : Z) : 2 <= k -> Z.log2 (k / 2) < Z.log2 k.
Proof.
  intros Hk.
  assert (Hpos : 0 < k / 2) by (apply Z.div_str_pos; lia).
  apply Z.log2_lt_pow2; [exact Hpos |].
  pose proof (Z.log2_spec k ltac:(lia)) as [_ Hup].
  pose proof (Z.log2_nonneg k).
  rewrite Z.pow_succ_r in Hup by assumption.
  apply Z.div_lt_upper_bound; lia.
Qed.

(** From a positive [k] the halving loop ends within [log2 k + 1] tests. *)
Lemma halving_loop_total (a n : Z) (fuel : nat) :
  n <> 0 ->
  forall k, 0 < k -> (Z.to_nat (Z.log2 k) < fuel)%nat ->
            exists passed, halving_loop fuel a n k = Ok passed.
Proof.
  intros Hn. induction fuel as [| fuel IH]; intros k Hk Hfuel; [lia |].
  cbn [halving_loop].
  destruct (Z.eqb_spec (k mod 2) 0) as [He | _]; [| now exists true].
  assert (Hk2 : 2 <= k).
  { destruct (Z.eq_dec k 1) as [-> | ?]; [discriminate He | lia]. }
  rewrite powers_nonneg by (try apply Z.div_pos; lia). cbn [bind].
  destruct (_ =? n - 1); [now exists true |].
  destruct (negb _); [now exists false |].
  apply IH.
  - apply Z.div_str_pos; lia.
  - pose proof (log2_half k Hk2). pose proof (Z.log2_nonneg (k / 2)). lia.
Qed.

Lemma miller_rabin_round_total (fuel : nat) (n : Z) (r : rng) :
  4 <= n -> (Z.to_nat (Z.log2 n) < fuel)%nat ->
  exists passed, miller_rabin_round fuel n r = Ok (passed, advance r).
Proof.
  intros Hn Hfuel. unfold miller_rabin_round, bindR.
  destruct (get_random_int_between_ok 2 (n - 2) r ltac:(lia)) as [a Ea].
  rewrite Ea. unfold lift.
  rewrite powers_nonneg by lia. cbn [bind].
  destruct (negb _); [now exists false |].
  destruct (halving_loop_total a n fuel ltac:(lia) (n - 1) ltac:(lia))
    as [passed E].
  - pose proof (Z.log2_le_mono (n - 1) n ltac:(lia)). lia.
  - rewrite E. now exists passed.
Qed.

(** From 4 on, the test returns a judgment for every tape and every number
    of iterations. *)
Lemma prime_test_miller_rabin_total (fuel : nat) (n iterations : Z) (r : rng) :
  4 <= n -> (Z.to_nat (Z.log2 n) < fuel)%nat ->
  exists judgment r', prime_test_miller_rabin fuel n iterations r = Ok (judgment, r').
Proof.
  intros Hn Hfuel. unfold prime_test_miller_rabin.
  generalize (Z.to_nat iterations) as rounds. intros rounds. revert r.
  induction rounds as [| rounds IH]; intros r; cbn [miller_rabin_rounds].
  - now exists true, r.
  - unfold bindR at 1.
    destruct (miller_rabin_round_total fuel n r Hn Hfuel) as [passed E].
    rewrite E. destruct passed; [apply IH | now exists false, (advance r)].
Qed.

(** ** Prime generation *)

Lemma py_str_digit (d : Z) :
  0 <= d <= 9 ->
  exists c, py_str d = String c EmptyString /\ digit_of_ascii c = Some d.
Proof.
  intros H.
  assert (Hcases : In d (map Z.of_nat (seq 0 10))).
  { apply in_map_iff. exists (Z.to_nat d). split; [lia |]. apply in_seq. lia. }
  cbn in Hcases.
  repeat (destruct Hcases as [<- | Hcases];
          [eexists; split; reflexivity |]).
  destruct Hcases.
Qed.

Lemma concat_empty_cons (x : string) (xs : list string) :
  String.concat "" (x :: xs) = (x ++ String.concat "" xs)%string.
Proof.
  cbn [String.concat]. destruct xs; [| reflexivity].
  cbn [String.concat]. induction x as [| c x IH]; [reflexivity |].
  cbn [String.append]. now rewrite <- IH.
Qed.

Lemma string_append_assoc (x y z : string) :
  ((x ++ y) ++ z = x ++ (y ++ z))%string.
Proof.
  induction x as [| c x IH]; [reflexivity |].
  cbn [String.append]. now rewrite IH.
Qed.

Lemma draw_middle_digits_value (count : nat) :
  forall r middle r',
    draw_middle_digits count r = Ok (middle, r') ->
    forall acc tail,
    exists acc',
      int_of_digits acc (String.concat "" middle ++ tail) =
      int_of_digits acc' tail /\
      acc * 10 ^ Z.of_nat count <= acc' < (acc + 1) * 10 ^ Z.of_nat count.
Proof.
  induction count as [| count IH]; intros r middle r' E acc tail.
  - cbn in E. inversion E; subst. exists acc. cbn [String.concat String.append].
    split; [reflexivity |]. cbn. lia.
  - cbn [draw_middle_digits] in E. unfold bindR at 1 in E.
    destruct (get_random_int_between 0 9 r) as [[d r1] | |] eqn:Ed;
      try discriminate.
    unfold bindR at 1 in E.
    destruct (draw_middle_digits count r1) as [[rest r2] | |] eqn:Er;
      try discriminate.
    unfold ret in E. inversion E; subst.
    apply get_random_int_between_range in Ed.
    destruct (py_str_digit d Ed) as (c & Ec & Hc).
    rewrite concat_empty_cons, string_append_assoc, Ec.
    cbn [String.append int_of_digits]. rewrite Hc.
    destruct (IH _ _ _ Er (acc * 10 + d) tail) as (acc' & Eacc & Hacc).
    exists acc'. split; [exact Eacc |].
    rewrite Nat2Z.inj_succ, Z.pow_succ_r by lia.
    pose proof (Z.pow_pos_nonneg 10 (Z.of_nat count) ltac:(lia) ltac:(lia)).
    nia.
Qed.

Lemma random_choice_last_digit (r r' : rng) (x : Z) :
  random_choice [1; 3; 7; 9] r = Ok (x, r') -> In x [1; 3; 7; 9].
Proof.
  unfold random_choice.
  change (Z.of_nat (List.length [1; 3; 7; 9])) with 4.
  pose proof (Z.mod_pos_bound (raw_draw r) 4 ltac:(lia)) as Hi.
  assert (Hcases : raw_draw r mod 4 = 0 \/ raw_draw r mod 4 = 1 \/
                   raw_draw r mod 4 = 2 \/ raw_draw r mod 4 = 3) by lia.
  destruct Hcases as [-> | [-> | [-> | ->]]]; cbn; intros E; inversion E; tauto.
Qed.

(** The number of digits that the construction really yields: one first
    digit, [n - 2] middle digits if that is positive, one last digit. *)
Lemma draw_candidate_shape (n : Z) (r r' : rng) (v : Z) :
  draw_candidate n r = Ok (v, r') ->
  let width := Z.max n 2 in
  10 ^ (width - 1) <= v < 10 ^ width /\ In (v mod 10) [1; 3; 7; 9].
Proof.
  unfold draw_candidate. intros E.
  unfold bindR at 1 in E.
  destruct (get_random_int_between 1 9 r) as [[d r1] | |] eqn:Ed;
    try discriminate.
  unfold bindR at 1 in E.
  destruct (draw_middle_digits (Z.to_nat (n - 2)) r1) as [[middle r2] | |] eqn:Em;
    try discriminate.
  unfold bindR at 1 in E.
  destruct (random_choice [1; 3; 7; 9] r2) as [[last r3] | |] eqn:El;
    try discriminate.
  apply get_random_int_between_range in Ed.
  apply random_choice_last_digit in El.
  destruct (py_str_digit d ltac:(lia)) as (c & Ec & Hc).
  destruct (py_str_digit last) as (cl & Ecl & Hcl).
  { cbn in El. lia. }
  destruct (draw_middle_digits_value _ _ _ _ Em d (py_str last))
    as (acc & Eacc & Hacc).
  rewrite Ec in E. cbn [String.append] in E. unfold lift, py_int in E.
  cbn [int_of_digits] in E. rewrite Hc in E. cbn [Z.mul Z.add] in E.
  rewrite Eacc, Ecl in E. cbn [int_of_digits] in E. rewrite Hcl in E.
  cbn [bind] in E. inversion E; subst v r3. clear E.
  set (count := Z.of_nat (Z.to_nat (n - 2))) in *.
  assert (Hw : Z.max n 2 = count + 2) by (unfold count; lia).
  assert (Hc0 : 0 <= count) by (unfold count; lia).
  cbv zeta. rewrite Hw.
  replace (count + 2 - 1) with (Z.succ count) by lia.
  replace (count + 2) with (Z.succ (Z.succ count)) by lia.
  rewrite !Z.pow_succ_r by lia.
  pose proof (Z.pow_pos_nonneg 10 count ltac:(lia) Hc0).
  assert (Hlast : 0 <= last <= 9) by (cbn in El; lia).
  split; [nia |].
  rewrite Z.add_comm, Z.mod_add, Z.mod_small by lia. exact El.
Qed.

Lemma generate_attempts_shape (fuel attempts : nat) (n : Z) :
  forall r r' v,
    generate_attempts fuel attempts n r = Ok (v, r') ->
    (exists r0 r1, draw_candidate n r0 = Ok (v, r1)) /\
    (exists r1 r2, prime_test_miller_rabin fuel v 10 r1 = Ok (true, r2)).
Proof.
  induction attempts as [| attempts IH]; intros r r' v E; [discriminate |].
  cbn [generate_attempts] in E. unfold bindR at 1 in E.
  destruct (draw_candidate n r) as [[prime r1] | |] eqn:Ec; try discriminate.
  unfold bindR at 1 in E.
  destruct (prime_test_miller_rabin fuel prime 10 r1)
    as [[passed r2] | |] eqn:Et; try discriminate.
  destruct passed.
  - unfold ret in E. inversion E; subst. split; eauto.
  - eapply IH. exact E.
Qed.

(** What the generator returns for any requested width: a number of
    [max n 2] decimal digits that ends in 1, 3, 7 or 9 and has passed ten
    rounds of the test.  For [n >= 2] that is exactly [n] digits. *)
Lemma generate_n_digit_prime_shape (fuel : nat) (n : Z) (r r' : rng) (v : Z) :
  generate_n_digit_prime fuel n r = Ok (v, r') ->
  10 ^ (Z.max n 2 - 1) <= v < 10 ^ Z.max n 2 /\
  In (v mod 10) [1; 3; 7; 9] /\
  (exists r1 r2, prime_test_miller_rabin fuel v 10 r1 = Ok (true, r2)).
Proof.
  unfold generate_n_digit_prime. intros E.
  apply generate_attempts_shape in E as [(r0 & r1 & Ec) Ht].
  apply draw_candidate_shape in Ec as [Hb Hl]. auto.
Qed.

Lemma generate_n_digit_prime_exact (fuel : nat) (n : Z) (r r' : rng) (v : Z) :
  2 <= n ->
  generate_n_digit_prime fuel n r = Ok (v, r') ->
  10 ^ (n - 1) <= v < 10 ^ n /\
  1 <= v / 10 ^ (n - 1) <= 9 /\
  In (v mod 10) [1; 3; 7; 9] /\
  (exists r1 r2, prime_test_miller_rabin fuel v 10 r1 = Ok (true, r2)).
Proof.
  intros Hn E. apply generate_n_digit_prime_shape in E as (Hb & Hl & Ht).
  rewrite Z.max_l in Hb by lia.
  assert (Hp : 0 < 10 ^ (n - 1)) by (apply Z.pow_pos_nonneg; lia).
  assert (Hs : 10 ^ n = 10 * 10 ^ (n - 1)).
  { rewrite <- Z.pow_succ_r by lia. f_equal. lia. }
  repeat split; try tauto; try lia.
  - apply Z.div_le_lower_bound; lia.
  - assert (v / 10 ^ (n - 1) < 10); [| lia].
    apply Z.div_lt_upper_bound; lia.
Qed.

(** Asked for one digit, the generator never answers with one. *)
Lemma generate_n_digit_prime_one_is_two_digits
      (fuel : nat) (r r' : rng) (v : Z) :
  generate_n_digit_prime fuel 1 r = Ok (v, r') -> 10 <= v < 100.
Proof.
  intros E. apply generate_n_digit_prime_shape in E as (Hb & _).
  cbn in Hb. lia.
Qed.

(** C8: asked for one digit, the generator returns two.  [range(n - 2)] is
    empty for [n = 1], so the candidate is a first digit followed by a last
    digit: on the tape of zero draws the answer is 11, which has passed the
    ten rounds and ends in 1 but is not below [10 ^ 1]. *)
Theorem generate_n_digit_prime_one_digit :
  generate_n_digit_prime 1 1 tape0 =
    Ok (11, {| tape := tape tape0; cursor := 12 |}) /\
  prime_test_miller_rabin 1 11 10 {| tape := tape tape0; cursor := 2 |} =
    Ok (true, {| tape := tape tape0; cursor := 12 |}) /\
  11 mod 10 = 1 /\ 10 ^ 1 <= 11.
Proof. repeat split; vm_compute; congruence. Qed.

(** For two digits and more the generator can return, and then the width
    is the requested one. *)
Example generate_n_digit_prime_two_digits :
  generate_n_digit_prime 1 2 tape0 =
    Ok (11, {| tape := tape tape0; cursor := 12 |}).
Proof. reflexivity. Qed.

(** ** Arithmetic modulo [n] *)

Lemma inverse_unique (n x y1 y2 : Z) :
  n <> 0 -> (y1 * x) mod n = 1 -> (y2 * x) mod n = 1 -> y1 mod n = y2 mod n.
Proof.
  intros Hn H1 H2.
  rewrite <- (Z.mul_1_r y1), <- H2, Z.mul_mod_idemp_r by assumption.
  replace (y1 * (y2 * x)) with (y2 * (y1 * x)) by ring.
  rewrite <- Z.mul_mod_idemp_r, H1 by assumption.
  now rewrite Z.mul_1_r.
Qed.

Lemma inverse_coprime (n x y : Z) : 1 < n -> (y * x) mod n = 1 -> Z.gcd x n = 1.
Proof.
  intros Hn H. apply Z.bezout_1_gcd. exists y, (- ((y * x) / n)).
  pose proof (Z.div_mod (y * x) n ltac:(lia)). lia.
Qed.

Lemma modular_inverse_correct (x n : Z) :
  1 < n -> Z.gcd x n = 1 -> (modular_inverse x n * x) mod n = 1.
Proof.
  intros Hn Hg. unfold modular_inverse.
  destruct (extended_euclid_gcd x n) as [[g s] t] eqn:E. cbn [fst snd].
  pose proof (extended_euclid_gcd_bezout _ _ _ _ _ E) as Hbz.
  pose proof (extended_euclid_gcd_pos_modulus x n ltac:(lia)) as Hfst.
  rewrite E in Hfst. cbn in Hfst.
  rewrite Z.mul_mod_idemp_l by lia.
  replace (s * x) with (1 + (- t) * n) by lia.
  rewrite Z.mod_add by lia. apply Z.mod_1_l. exact Hn.
Qed.

Lemma unit_power_congr (x1 x2 y1 y2 e n : Z) :
  x1 mod n = x2 mod n -> y1 mod n = y2 mod n ->
  unit_power x1 y1 e n = unit_power x2 y2 e n.
Proof.
  intros Hx Hy. unfold unit_power. destruct (e <? 0).
  - now rewrite <- (Z.mod_pow_l y1), Hy, Z.mod_pow_l.
  - now rewrite <- (Z.mod_pow_l x1), Hx, Z.mod_pow_l.
Qed.

Lemma unit_power_inverse (x y e n : Z) :
  1 < n -> (y * x) mod n = 1 ->
  (unit_power y x e n * unit_power x y e n) mod n = 1.
Proof.
  intros Hn H. unfold unit_power.
  assert (Hpow : forall k, 0 <= k -> (x ^ k * y ^ k) mod n = 1).
  { intros k Hk. rewrite <- Z.pow_mul_l, <- Z.mod_pow_l, (Z.mul_comm x y), H.
    rewrite Z.pow_1_l by assumption. apply Z.mod_1_l. exact Hn. }
  destruct (Z.ltb_spec e 0); rewrite <- Z.mul_mod by lia.
  - apply Hpow. lia.
  - rewrite Z.mul_comm. apply Hpow. lia.
Qed.

Lemma unit_power_compose (x y e d n : Z) :
  unit_power (unit_power x y e n) (unit_power y x e n) d n =
  unit_power x y (e * d) n.
Proof.
  unfold unit_power.
  destruct (Z.ltb_spec e 0), (Z.ltb_spec d 0), (Z.ltb_spec (e * d) 0);
    try nia; rewrite Z.mod_pow_l.
  - rewrite <- Z.pow_mul_r by lia. do 2 f_equal. ring.
  - rewrite <- Z.pow_mul_r by lia. do 2 f_equal. ring.
  - assert (d = 0) by nia. subst d. now rewrite Z.mul_0_r, !Z.pow_0_r.
  - rewrite <- Z.pow_mul_r by lia. do 2 f_equal. ring.
  - assert (e = 0) by nia. subst e. cbn [Z.mul Z.opp].
    now rewrite Z.pow_0_r, Z.pow_1_l by lia.
  - rewrite <- Z.pow_mul_r by lia. reflexivity.
Qed.

Lemma powers_coprime (x e n : Z) :
  1 <= n -> Z.gcd x n = 1 ->
  powers x e n = Ok (unit_power x (modular_inverse x n) e n).
Proof.
  intros Hn Hg. unfold unit_power, modular_inverse.
  destruct (Z.ltb_spec e 0) as [He | He].
  - destruct (powers_negative_pos_modulus x e n He Hn) as [[Hg' _] | [_ E]];
      [contradiction | exact E].
  - apply powers_nonneg; lia.
Qed.

(** ** Correctness of the RSA round trip *)

Lemma fermat_exponent (r M k : Z) :
  Z.prime r -> 0 <= k -> M ^ (1 + k * (r - 1)) mod r = M mod r.
Proof.
  intros Hr Hk. pose proof (Z.prime_ge_2 r Hr) as Hr2.
  rewrite Z.pow_add_r, Z.pow_1_r, (Z.mul_comm k), Z.pow_mul_r by nia.
  destruct (Z.eq_dec (M mod r) 0) as [Hz | Hnz].
  - rewrite <- Z.mul_mod_idemp_l, Hz by lia. cbn [Z.mul]. apply Z.mod_0_l. lia.
  - rewrite <- Z.mul_mod_idemp_r, <- Z.mod_pow_l by lia.
    rewrite Z.fermat_nz, Z.pow_1_l, Z.mod_1_l, Z.mul_1_r by (assumption || lia).
    reflexivity.
Qed.

Section RSA.

Variables p q : Z.
Hypothesis p_prime : Z.prime p.
Hypothesis q_prime : Z.prime q.
Hypothesis p_neq_q : p <> q.

Let n := p * q.
Let phi := euler_totient p q.

Lemma rsa_modulus_bounds : 2 <= p /\ 2 <= q /\ 1 < n /\ 2 <= phi.
Proof.
  pose proof (Z.prime_ge_2 p p_prime). pose proof (Z.prime_ge_2 q q_prime).
  unfold n, phi, euler_totient. repeat split; nia.
Qed.

Lemma rsa_primes_coprime : Z.gcd p q = 1.
Proof.
  apply Z.coprime_prime_l; [exact p_prime |].
  intros Hdiv. apply p_neq_q.
  now apply Z.divide_prime_prime.
Qed.

(** Congruence modulo both primes is congruence modulo their product. *)
Lemma crt_congruence (x y : Z) :
  x mod p = y mod p -> x mod q = y mod q -> x mod n = y mod n.
Proof.
  destruct rsa_modulus_bounds as (Hp2 & Hq2 & Hn & _).
  intros Hxp Hxq.
  apply Z.cong_iff_0 in Hxp. apply Z.cong_iff_0 in Hxq.
  apply Z.mod_divide in Hxp; [| lia]. apply Z.mod_divide in Hxq; [| lia].
  apply Z.cong_iff_0. apply Z.mod_divide; [lia |].
  destruct Hxp as [k Hk]. rewrite Hk in Hxq |- *.
  rewrite Z.mul_comm in Hxq.
  apply Z.gauss in Hxq; [| rewrite Z.gcd_comm; exact rsa_primes_coprime].
  destruct Hxq as [j Hj]. exists j. unfold n. rewrite Hj. ring.
Qed.

(** An exponent congruent to 1 modulo the totient fixes every residue,
    coprime to [n] or not. *)
Lemma rsa_exponent (M E : Z) :
  0 <= E -> E mod phi = 1 -> M ^ E mod n = M mod n.
Proof.
  destruct rsa_modulus_bounds as (Hp2 & Hq2 & Hn & Hphi).
  intros HE Hmod.
  pose proof (Z.div_mod E phi ltac:(lia)) as Hdiv. rewrite Hmod in Hdiv.
  assert (Hk : 0 <= E / phi) by (apply Z.div_pos; lia).
  generalize dependent (E / phi). intros k Hdiv Hk. subst E.
  apply crt_congruence.
  - replace (phi * k + 1) with (1 + (k * (q - 1)) * (p - 1))
      by (unfold phi, euler_totient; ring).
    apply fermat_exponent; [exact p_prime | nia].
  - replace (phi * k + 1) with (1 + (k * (p - 1)) * (q - 1))
      by (unfold phi, euler_totient; ring).
    apply fermat_exponent; [exact q_prime | nia].
Qed.

Lemma coprime_modulus_nonzero_residues (x : Z) :
  Z.gcd x n = 1 -> x mod p <> 0 /\ x mod q <> 0.
Proof.
  destruct rsa_modulus_bounds as (Hp2 & Hq2 & _).
  intros Hg.
  assert (Hno : forall r, 2 <= r -> (r | n) -> x mod r <> 0).
  { intros r Hr Hrn Hz. apply Z.mod_divide in Hz; [| lia].
    pose proof (Z.gcd_greatest x n r Hz Hrn) as H1. rewrite Hg in H1.
    apply Z.divide_1_r in H1. lia. }
  split; apply Hno; try assumption; unfold n.
  - apply Z.divide_factor_l.
  - apply Z.divide_factor_r.
Qed.

(** Euler's theorem for the two-prime modulus. *)
Lemma euler_two_primes (x : Z) : Z.gcd x n = 1 -> x ^ phi mod n = 1.
Proof.
  destruct rsa_modulus_bounds as (Hp2 & Hq2 & Hn & Hphi).
  intros Hg. destruct (coprime_modulus_nonzero_residues x Hg) as [Hxp Hxq].
  rewrite <- (Z.mod_1_l n Hn). apply crt_congruence.
  - unfold phi, euler_totient. rewrite Z.pow_mul_r by lia.
    rewrite <- Z.mod_pow_l, Z.fermat_nz by assumption.
    now rewrite Z.pow_1_l by lia.
  - unfold phi, euler_totient. rewrite Z.mul_comm, Z.pow_mul_r by lia.
    rewrite <- Z.mod_pow_l, Z.fermat_nz by assumption.
    now rewrite Z.pow_1_l by lia.
Qed.

Lemma unit_power_one_mod_phi (x y E : Z) :
  (y * x) mod n = 1 -> E mod phi = 1 -> unit_power x y E n = x mod n.
Proof.
  destruct rsa_modulus_bounds as (Hp2 & Hq2 & Hn & Hphi).
  intros Hinv Hmod. unfold unit_power.
  destruct (Z.ltb_spec E 0) as [Hneg | Hpos]; [| now apply rsa_exponent].
  pose proof (Z.div_mod E phi ltac:(lia)) as Hdiv. rewrite Hmod in Hdiv.
  assert (Hk : E / phi < 0) by (apply Z.div_lt_upper_bound; lia).
  assert (Hy : Z.gcd y n = 1).
  { apply (inverse_coprime n y x Hn). now rewrite Z.mul_comm. }
  apply (inverse_unique n y); [lia | | now rewrite Z.mul_comm].
  rewrite <- (Z.pow_1_r y) at 2. rewrite <- Z.pow_add_r by lia.
  replace (- E + 1) with (phi * (- (E / phi))) by lia.
  rewrite Z.pow_mul_r, <- Z.mod_pow_l, euler_two_primes by lia.
  rewrite Z.pow_1_l by lia. apply Z.mod_1_l. exact Hn.
Qed.

Lemma shared_factor (M : Z) :
  Z.gcd M n <> 1 -> exists r, 2 <= r /\ (r | n) /\ (r | M).
Proof.
  destruct rsa_modulus_bounds as (Hp2 & Hq2 & _).
  intros Hg.
  destruct (Z.eq_dec (M mod p) 0) as [Hz | Hpz].
  { exists p. repeat split; [lia | apply Z.divide_factor_l |].
    apply Z.mod_divide; [lia | exact Hz]. }
  destruct (Z.eq_dec (M mod q) 0) as [Hz | Hqz].
  { exists q. repeat split; [lia | apply Z.divide_factor_r |].
    apply Z.mod_divide; [lia | exact Hz]. }
  exfalso. apply Hg. rewrite Z.gcd_comm. apply Z.coprime_mul_l.
  - apply Z.coprime_prime_l; [exact p_prime |].
    intros H. apply Hpz. apply Z.mod_divide; [lia | exact H].
  - apply Z.coprime_prime_l; [exact q_prime |].
    intros H. apply Hqz. apply Z.mod_divide; [lia | exact H].
Qed.

End RSA.

Lemma trial_division_prime (p : Z) : trial_division p = true -> Z.prime p.
Proof.
  unfold trial_division. intros H. apply andb_true_iff in H as [H1 H].
  apply Z.ltb_lt in H1. split; [exact H1 |].
  intros d Hd Hdiv. rewrite forallb_forall in H.
  specialize (H (Z.to_nat d)). rewrite Z2Nat.id in H by lia.
  apply Z.mod_divide in Hdiv; [| lia]. rewrite Hdiv in H.
  discriminate H. apply in_seq. lia.
Qed.

Lemma divide_power_residue (r M e n : Z) :
  1 <= e -> n <> 0 -> (r | M) -> (r | n) -> (r | Z.gcd (M ^ e mod n) n).
Proof.
  intros He Hn HM Hrn. apply Z.gcd_greatest; [| exact Hrn].
  rewrite Z.mod_eq by assumption. apply Z.divide_sub_r.
  - apply Z.divide_trans with M; [exact HM |]. now apply Z.divide_pow_same_r.
  - apply Z.divide_mul_l. exact Hrn.
Qed.

(** C10 (as amended): for distinct primes [p], [q], exponents with
    [e * d = 1] modulo [(p - 1) * (q - 1)] and a message [0 <= M < p * q],
    encryption followed by decryption returns [M] when both exponents are
    positive or when [M] is coprime to the modulus; otherwise an exponent
    is negative and the inverse it needs does not exist, and [powers]
    raises [ValueError]. *)
Theorem rsa_round_trip (p q e d M : Z) :
  Z.prime p -> Z.prime q -> p <> q ->
  Z.gcd e (euler_totient p q) = 1 ->
  (e * d) mod euler_totient p q = 1 ->
  0 <= M < p * q ->
  (C <- powers M e (p * q) ;; powers C d (p * q)) =
  if (0 <? e) && (0 <? d) || (Z.gcd M (p * q) =? 1)
  then Ok M else Raise ValueError.
Proof.
  intros Hp Hq Hpq _ Hed HM.
  destruct (rsa_modulus_bounds p q Hp Hq Hpq) as (Hp2 & Hq2 & Hn & Hphi).
  set (n := p * q) in *. set (phi := euler_totient p q) in *.
  destruct (Z.eqb_spec (Z.gcd M n) 1) as [Hg | Hg].
  - rewrite orb_true_r.
    pose proof (modular_inverse_correct M n Hn Hg) as Hy.
    set (y := modular_inverse M n) in *.
    rewrite (powers_coprime M e n) by (lia || assumption). cbn [bind].
    pose proof (unit_power_inverse M y e n Hn Hy) as HC.
    pose proof (inverse_coprime n _ _ Hn HC) as HgC.
    rewrite (powers_coprime _ d n) by (lia || assumption). f_equal.
    rewrite (unit_power_congr _ (unit_power M y e n) _ (unit_power y M e n) d n
               eq_refl).
    + rewrite unit_power_compose.
      unfold n. rewrite (unit_power_one_mod_phi p q Hp Hq Hpq) by assumption.
      apply Z.mod_small. exact HM.
    + apply (inverse_unique n (unit_power M y e n)); [lia | | exact HC].
      apply modular_inverse_correct; assumption.
  - rewrite orb_false_r.
    assert (He0 : e <> 0).
    { intros ->. rewrite Z.mul_0_l, Z.mod_0_l in Hed by lia. discriminate. }
    assert (Hd0 : d <> 0).
    { intros ->. rewrite Z.mul_0_r, Z.mod_0_l in Hed by lia. discriminate. }
    destruct (Z.ltb_spec 0 e) as [He | He]; cbn [andb].
    + rewrite (powers_nonneg M e n) by lia. cbn [bind].
      destruct (Z.ltb_spec 0 d) as [Hd | Hd].
      * rewrite powers_nonneg by lia. f_equal.
        rewrite Z.mod_pow_l, <- Z.pow_mul_r by lia.
        unfold n. rewrite (rsa_exponent p q Hp Hq Hpq) by (assumption || nia).
        apply Z.mod_small. exact HM.
      * destruct (shared_factor p q Hp Hq Hpq M Hg) as (r & Hr & Hrn & HrM).
        destruct (powers_negative_pos_modulus (M ^ e mod n) d n)
          as [[_ E] | [Hone _]]; [lia | lia | exact E |].
        pose proof (divide_power_residue r M e n ltac:(lia) ltac:(lia) HrM Hrn)
          as Hdiv.
        rewrite Hone in Hdiv. apply Z.divide_1_r in Hdiv. lia.
    + destruct (powers_negative_pos_modulus M e n)
        as [[_ E] | [Hone _]]; [lia | lia | | contradiction].
      now rewrite E.
Qed.

Lemma rsa_round_trip_witness :
  (C <- powers 225 17 (61 * 53) ;; powers C (-367) (61 * 53)) = Ok 225.
Proof.
  apply (rsa_round_trip 61 53 17 (-367) 225).
  - apply trial_division_prime. reflexivity.
  - apply trial_division_prime. reflexivity.
  - discriminate.
  - reflexivity.
  - reflexivity.
  - lia.
Defined.

(** C10 (as stated, for every [d]) fails: the exponent that [rsa] itself
    derives for [e = 17] is -367, and with it a message that is a multiple
    of [p] cannot be decrypted. *)
Lemma rsa_round_trip_negative_exponent :
  ~ (forall p q e d M : Z,
        Z.prime p -> Z.prime q -> p <> q ->
        Z.gcd e (euler_totient p q) = 1 ->
        (e * d) mod euler_totient p q = 1 ->
        0 <= M < p * q ->
        (C <- powers M e (p * q) ;; powers C d (p * q)) = Ok M).
Proof.
  intros H.
  pose proof (H 61 53 17 (-367) 61
                (trial_division_prime 61 eq_refl)
                (trial_division_prime 53 eq_refl)
                ltac:(discriminate) eq_refl eq_refl ltac:(lia)) as E.
  vm_compute in E. discriminate E.
Qed.

(** * Further properties of the code *)

(** ** Alphabet: the two lookups *)

Lemma scan_characters_found (cs : list string) (start : Z) (c : string) (i : Z) :
  scan_characters cs start c = Ok i -> In c cs.
Proof.
  revert start. induction cs as [| x cs IH]; intros start E; [discriminate |].
  cbn [scan_characters] in E. destruct (String.eqb_spec x c) as [-> | _].
  - now left.
  - right. eapply IH. exact E.
Qed.

Lemma scan_characters_absent (cs : list string) (start : Z) (c : string) :
  existsb (String.eqb c) cs = false ->
  scan_characters cs start c = Raise Exception.
Proof.
  revert start. induction cs as [| x cs IH]; intros start H; [reflexivity |].
  cbn [existsb] in H. apply orb_false_iff in H as [Hx Hcs].
  cbn [scan_characters]. rewrite String.eqb_sym, Hx. now apply IH.
Qed.

Lemma is_character_true (c : string) : In c characters -> is_character c = true.
Proof.
  intros H. unfold is_character. apply existsb_exists.
  exists c. split; [exact H | apply String.eqb_refl].
Qed.

(** X1: the two lookups are inverse to each other on positions 1 to 26:
    [get_index_from_character] answers [i] for [c] exactly when [i] is one
    of these positions and [get_character_from_index] answers [c] for
    it. *)
Theorem alphabet_lookups_inverse (c : string) (i : Z) :
  get_index_from_character c = Ok i <->
  1 <= i <= 26 /\ get_character_from_index i = Ok c.
Proof.
  split.
  - intros E. pose proof (scan_characters_found _ _ _ _ E) as Hc.
    destruct (alphabet_positions c Hc) as (j & Ej & Hj & Eback).
    rewrite Ej in E. inversion E; subst. tauto.
  - intros [Hi E].
    assert (Hcases : In i (map Z.of_nat (seq 1 26))).
    { apply in_map_iff. exists (Z.to_nat i). split; [lia |]. apply in_seq. lia. }
    cbn in Hcases.
    repeat (destruct Hcases as [<- | Hcases];
            [cbv in E; inversion E; reflexivity |]).
    destruct Hcases.
Qed.

Lemma convert_to_bearcatii_unknown (message : string) :
  forallb is_character (chars_of message) = false ->
  convert_to_bearcatii message = Raise Exception.
Proof.
  unfold convert_to_bearcatii.
  induction message as [| ch rest IH]; intros Hall; [discriminate |].
  cbn [chars_of forallb mapM] in *.
  destruct (is_character (String ch EmptyString)) eqn:Hc.
  - cbn [andb] in Hall. apply is_character_In in Hc.
    destruct (alphabet_positions _ Hc) as (i & Ei & _).
    rewrite Ei. cbn [bind]. now rewrite (IH Hall).
  - unfold get_index_from_character.
    now rewrite (scan_characters_absent characters 0 _ Hc).
Qed.

(** X2: [convert_to_bearcatii] either returns one position in 1..26 per
    symbol, or raises the [Exception] of the first symbol that is not in
    the alphabet; it has no other outcome. *)
Theorem convert_to_bearcatii_outcome (message : string) :
  (in_alphabet message /\
   exists positions,
     convert_to_bearcatii message = Ok positions /\
     List.length positions = String.length message /\
     Forall (fun i => 1 <= i <= 26) positions) \/
  (~ in_alphabet message /\ convert_to_bearcatii message = Raise Exception).
Proof.
  destruct (forallb is_character (chars_of message)) eqn:Hall.
  - left. split; [exact Hall |].
    destruct (convert_to_bearcatii_ok message Hall) as (l & El & Hl & Hlen & _).
    exists l. auto.
  - right. split; [unfold in_alphabet; congruence |].
    now apply convert_to_bearcatii_unknown.
Qed.

(** X3: [get_character_from_index] answers on the window from -25 to 26
    and nowhere else: inside it the symbol is the one at offset
    [(index - 1) mod 26] of the list, so 0 and the negative positions wrap
    around to the end of the alphabet; outside it raises [IndexError]. *)
Theorem get_character_from_index_window (index : Z) :
  get_character_from_index index =
  if (-25 <=? index) && (index <=? 26)
  then match nth_error characters (Z.to_nat ((index - 1) mod 26)) with
       | Some c => Ok c
       | None => Raise IndexError
       end
  else Raise IndexError.
Proof.
  destruct (Z.leb_spec (-25) index) as [Hlo | Hlo]; cbn [andb];
    [| now apply get_character_from_index_below].
  destruct (Z.leb_spec index 26) as [Hhi | Hhi];
    [| now apply get_character_from_index_above].
  assert (Hcases : In index (map (fun i => Z.of_nat i - 25) (seq 0 52))).
  { apply in_map_iff. exists (Z.to_nat (index + 25)). split; [lia |].
    apply in_seq. lia. }
  cbn in Hcases.
  repeat (destruct Hcases as [<- | Hcases]; [reflexivity |]).
  destruct Hcases.
Qed.

(** ** The digit loop *)

Lemma convert_loop_digits (n : Z) :
  2 <= n ->
  forall fuel value output,
    0 <= value < 2 ^ (Z.of_nat fuel - 1) ->
    exists digits,
      convert_loop fuel value n output = Ok (digits ++ output) /\
      Forall (fun d => 0 <= d < n) digits /\
      horner_eval digits n = value /\
      (value = 0 -> digits = []) /\
      (forall d rest, digits = d :: rest -> d <> 0).
Proof.
  intros Hn. induction fuel as [| fuel IH]; intros value output Hv.
  - cbn in Hv. lia.
  - cbn [convert_loop].
    destruct (Z.eqb_spec value 0) as [-> | Hnz].
    + exists []. repeat split; try constructor. intros; discriminate.
    + unfold py_mod, py_div. destruct (Z.eqb_spec n 0); [lia |]. cbn [bind].
      assert (Hfuel : (0 < fuel)%nat).
      { destruct fuel; [cbn in Hv; lia | lia]. }
      assert (Hq : 0 <= value / n < 2 ^ (Z.of_nat fuel - 1)).
      { split; [apply Z.div_pos; lia |].
        apply Z.div_lt_upper_bound; [lia |].
        replace (Z.of_nat (S fuel) - 1) with (Z.succ (Z.of_nat fuel - 1)) in Hv
          by lia.
        rewrite Z.pow_succ_r in Hv by lia.
        pose proof (Z.pow_pos_nonneg 2 (Z.of_nat fuel - 1) ltac:(lia) ltac:(lia)).
        nia. }
      destruct (IH (value / n) (value mod n :: output) Hq)
        as (ds & E & Hds & Hh & Hzero & Hhead).
      pose proof (Z.mod_pos_bound value n ltac:(lia)) as Hd.
      exists (ds ++ [value mod n]). rewrite <- app_assoc. split; [exact E |].
      split; [apply Forall_app; split; [exact Hds | now constructor] |].
      split; [rewrite horner_eval_snoc, Hh;
              rewrite (Z.div_mod value n) at 3 by lia; ring |].
      split; [contradiction |].
      intros d rest Hd0. destruct ds as [| d' ds'].
      * cbn in Hd0. inversion Hd0; subst.
        cbv [horner_eval fold_left] in Hh.
        pose proof (Z.div_mod value n ltac:(lia)). lia.
      * cbn in Hd0. inversion Hd0; subst. eapply Hhead. reflexivity.
Qed.

(** X4: for a base of at least 2 and a non-negative value,
    [convert_to_base_n] returns (within one iteration per bit, plus one)
    the digits of the value, most significant first: each is in [0, n),
    Horner evaluation of them gives the value back, zero has no digits and
    there is never a leading zero. *)
Theorem convert_to_base_n_digits (fuel : nat) (value n : Z) :
  2 <= n -> 0 <= value < 2 ^ (Z.of_nat fuel - 1) ->
  exists digits,
    convert_to_base_n fuel value n = Ok digits /\
    Forall (fun d => 0 <= d < n) digits /\
    horner_eval digits n = value /\
    (value = 0 -> digits = []) /\
    (forall d rest, digits = d :: rest -> d <> 0).
Proof.
  intros Hn Hv. unfold convert_to_base_n.
  destruct (convert_loop_digits n Hn fuel value [] Hv) as (ds & E & H).
  exists ds. rewrite app_nil_r in E. auto.
Qed.

Lemma convert_to_base_n_digits_witness :
  exists digits,
    convert_to_base_n 11 946 27 = Ok digits /\
    Forall (fun d => 0 <= d < 27) digits /\
    horner_eval digits 27 = 946 /\
    (946 = 0 -> digits = []) /\
    (forall d rest, digits = d :: rest -> d <> 0).
Proof.
  apply (convert_to_base_n_digits 11 946 27); [lia | cbn; lia].
Defined.

Lemma convert_loop_negative (n : Z) :
  1 <= n ->
  forall fuel value output,
    value < 0 -> convert_loop fuel value n output = OutOfFuel.
Proof.
  intros Hn. induction fuel as [| fuel IH]; intros value output Hv;
    [reflexivity |].
  cbn [convert_loop]. destruct (Z.eqb_spec value 0); [lia |].
  unfold py_mod, py_div. destruct (Z.eqb_spec n 0); [lia |]. cbn [bind].
  apply IH. apply Z.div_lt_upper_bound; lia.
Qed.

(** X5: on a negative value and a positive base the loop of
    [convert_to_base_n] never ends: floor division keeps the value
    negative, so whatever the bound on the iterations it is exhausted and
    no digit list is returned. *)
Theorem convert_to_base_n_negative_diverges (fuel : nat) (value n : Z) :
  value < 0 -> 1 <= n -> convert_to_base_n fuel value n = OutOfFuel.
Proof.
  intros Hv Hn. now apply convert_loop_negative.
Qed.

Lemma convert_to_base_n_negative_diverges_witness :
  convert_to_base_n 1000 (-1) 27 = OutOfFuel.
Proof.
  apply (convert_to_base_n_negative_diverges 1000 (-1) 27); lia.
Defined.

Lemma convert_loop_base_one (fuel : nat) :
  forall value output,
    value <> 0 -> convert_loop fuel value 1 output = OutOfFuel.
Proof.
  induction fuel as [| fuel IH]; intros value output Hv; [reflexivity |].
  cbn [convert_loop]. destruct (Z.eqb_spec value 0); [contradiction |].
  cbn. rewrite Z.div_1_r. now apply IH.
Qed.

(** X6: the degenerate bases.  With base 0 a non-zero value stops the
    first iteration on [ZeroDivisionError]; with base 1 the value never
    changes and the loop never ends. *)
Theorem convert_to_base_n_degenerate_base (fuel : nat) (value : Z) :
  value <> 0 ->
  convert_to_base_n (S fuel) value 0 = Raise ZeroDivisionError /\
  convert_to_base_n fuel value 1 = OutOfFuel.
Proof.
  intros Hv. split.
  - unfold convert_to_base_n. cbn [convert_loop].
    destruct (Z.eqb_spec value 0); [contradiction | reflexivity].
  - now apply convert_loop_base_one.
Qed.

Lemma convert_to_base_n_degenerate_base_witness :
  convert_to_base_n 8 5 0 = Raise ZeroDivisionError /\
  convert_to_base_n 7 5 1 = OutOfFuel.
Proof.
  apply (convert_to_base_n_degenerate_base 7 5). discriminate.
Defined.

(** ** Decoding any non-negative integer *)





(** The integer 27 has the digits 1 and 0 and decodes to "AZ", which
    encodes to 53: decoding is not injective on integers with a zero
    digit. *)
Example decode_zero_digit :
  convert_to_base_n 3 27 radix = Ok [1; 0] /\
  convert_bearcatii_to_string [1; 0] = Ok "AZ"%string /\
  convert_to_bearcatii "AZ" = Ok [1; 26] /\
  horner_eval [1; 26] radix = 53.
Proof. repeat split. Qed.

(** ** Euclid on all integers *)

(** X8: on all integers, negative ones included, the triple of
    [extended_euclid_gcd] satisfies the Bezout identity, its first
    component is the value of [euclid_gcd], and the absolute value of that
    component is the gcd. *)
Theorem extended_euclid_gcd_all_integers (a b : Z) :
  exists g s t,
    extended_euclid_gcd a b = (g, s, t) /\
    s * a + t * b = g /\
    g = euclid_gcd a b /\
    Z.abs g = Z.gcd a b.
Proof.
  destruct (extended_euclid_gcd a b) as [[g s] t] eqn:E.
  exists g, s, t. split; [reflexivity |].
  pose proof (extended_euclid_gcd_fst a b) as Hg. rewrite E in Hg. cbn in Hg.
  split; [now apply extended_euclid_gcd_bezout |].
  split; [now symmetry |]. rewrite Hg. apply euclid_gcd_abs.
Qed.

(** X9: with a non-zero second argument the result of [euclid_gcd] carries
    the sign of that argument: it is the gcd for a positive [b] and minus
    the gcd for a negative [b], whatever the sign of [a]. *)
Theorem euclid_gcd_sign (a b : Z) :
  b <> 0 -> euclid_gcd a b = Z.sgn b * Z.gcd a b.
Proof.
  intros Hb. destruct (Z.lt_trichotomy b 0) as [Hneg | [-> | Hpos]].
  - rewrite euclid_gcd_neg_divisor, Z.sgn_neg by assumption. ring.
  - contradiction.
  - rewrite euclid_gcd_pos_divisor, Z.sgn_pos by assumption. ring.
Qed.

Lemma euclid_gcd_sign_witness :
  euclid_gcd 4 (-6) = Z.sgn (-6) * Z.gcd 4 (-6).
Proof.
  apply (euclid_gcd_sign 4 (-6)). discriminate.
Defined.

(** ** Modular exponentiation: edges and algebra *)

(** X10: with modulus 0 [powers] never returns.  It raises
    [ZeroDivisionError] on the first reduction, except for a negative
    exponent with a base other than 1, where the inverse test comes first
    and raises [ValueError]. *)
Theorem powers_modulus_zero (a n : Z) :
  powers a n 0 =
  if (n <? 0) && negb (a =? 1) then Raise ValueError
  else Raise ZeroDivisionError.
Proof.
  rewrite powers_eqn.
  destruct (Z.eqb_spec n 0) as [-> | H0]; [reflexivity |].
  destruct (Z.eqb_spec n 1) as [-> | H1]; [reflexivity |].
  destruct (Z.ltb_spec n 0) as [Hneg | Hpos]; cbn [andb].
  - rewrite extended_euclid_gcd_eqn. cbn.
    destruct (Z.eqb_spec a 1); reflexivity.
  - destruct (n mod 2 =? 0); reflexivity.
Qed.

(** X11: for non-negative exponents and a non-zero modulus [powers]
    follows the laws of exponents: the product of two powers, reduced, is
    the power of the sum, and a power of a power is the power of the
    product. *)
Theorem powers_exponent_laws (a e1 e2 k : Z) :
  0 <= e1 -> 0 <= e2 -> k <> 0 ->
  (x <- powers a e1 k ;; y <- powers a e2 k ;; py_mod (x * y) k) =
    powers a (e1 + e2) k /\
  (x <- powers a e1 k ;; powers x e2 k) = powers a (e1 * e2) k.
Proof.
  intros H1 H2 Hk.
  rewrite !powers_nonneg by (assumption || lia || nia). cbn [bind].
  rewrite py_mod_ok, powers_nonneg by assumption.
  split; f_equal.
  - now rewrite <- Z.mul_mod, Z.pow_add_r.
  - now rewrite Z.mod_pow_l, Z.pow_mul_r.
Qed.

Lemma powers_exponent_laws_witness :
  (x <- powers 7 5 33 ;; y <- powers 7 8 33 ;; py_mod (x * y) 33) =
    powers 7 (5 + 8) 33 /\
  (x <- powers 7 5 33 ;; powers x 8 33) = powers 7 (5 * 8) 33.
Proof.
  apply (powers_exponent_laws 7 5 8 33); lia.
Defined.

(** X12: for a modulus above 1 and a base coprime to it, the power with a
    negative exponent is the inverse of the power with the opposite
    exponent: both are returned, and their product is 1 modulo [k]. *)
Theorem powers_negative_is_inverse (a n k : Z) :
  n < 0 -> 1 < k -> Z.gcd a k = 1 ->
  (x <- powers a n k ;; y <- powers a (- n) k ;; py_mod (x * y) k) = Ok 1.
Proof.
  intros Hn Hk Hg.
  rewrite (powers_coprime a n k) by (lia || assumption). cbn [bind].
  rewrite powers_nonneg by lia. cbn [bind]. rewrite py_mod_ok by lia.
  f_equal.
  pose proof (unit_power_inverse a (modular_inverse a k) n k Hk
                (modular_inverse_correct a k Hk Hg)) as Hinv.
  unfold unit_power in Hinv |- *.
  destruct (Z.ltb_spec n 0); [| lia].
  rewrite Z.mul_comm. exact Hinv.
Qed.

Lemma powers_negative_is_inverse_witness :
  (x <- powers 10 (-3) 17 ;; y <- powers 10 (- -3) 17 ;; py_mod (x * y) 17) = Ok 1.
Proof.
  apply (powers_negative_is_inverse 10 (-3) 17); [lia | lia | reflexivity].
Defined.

(** X13: for two distinct primes, [euler_totient p q] is an exponent that
    sends every base coprime to [p * q] to 1. *)
Theorem powers_euler_totient (p q x : Z) :
  Z.prime p -> Z.prime q -> p <> q -> Z.gcd x (p * q) = 1 ->
  powers x (euler_totient p q) (p * q) = Ok 1.
Proof.
  intros Hp Hq Hpq Hg.
  destruct (rsa_modulus_bounds p q Hp Hq Hpq) as (Hp2 & Hq2 & Hn & Hphi).
  rewrite powers_nonneg by lia. f_equal.
  now apply euler_two_primes.
Qed.

Lemma powers_euler_totient_witness :
  powers 2 (euler_totient 61 53) (61 * 53) = Ok 1.
Proof.
  apply (powers_euler_totient 61 53 2).
  - apply trial_division_prime. reflexivity.
  - apply trial_division_prime. reflexivity.
  - discriminate.
  - reflexivity.
Defined.

(** The totient of the code is the one of two distinct primes only: with
    [p = q = 3] the exponent 4 does not send 2 to 1 modulo 9. *)
Example powers_euler_totient_equal_primes :
  powers 2 (euler_totient 3 3) (3 * 3) = Ok 7.
Proof. reflexivity. Qed.

(** ** The primality test from 4 on *)

Lemma miller_rabin_rounds_draws (fuel : nat) (n : Z) :
  4 <= n -> (Z.to_nat (Z.log2 n) < fuel)%nat ->
  forall rounds r,
  exists judgment draws,
    miller_rabin_rounds fuel n rounds r =
      Ok (judgment, {| tape := tape r; cursor := cursor r + draws |}) /\
    (draws <= rounds)%nat /\
    (judgment = true -> draws = rounds).
Proof.
  intros Hn Hfuel. induction rounds as [| rounds IH]; intros r.
  - exists true, 0%nat. cbn [miller_rabin_rounds]. unfold ret.
    rewrite Nat.add_0_r. destruct r. repeat split. lia.
  - cbn [miller_rabin_rounds]. unfold bindR at 1.
    destruct (miller_rabin_round_total fuel n r Hn Hfuel) as [passed E].
    rewrite E. destruct passed.
    + destruct (IH (advance r)) as (j & d & Ej & Hd & Hj).
      exists j, (S d). rewrite Ej. cbn [advance tape cursor].
      rewrite Nat.add_succ_r. repeat split; [lia | intros; f_equal; auto].
    + exists false, 1%nat. unfold ret, advance. rewrite Nat.add_1_r.
      repeat split; [lia | discriminate].
Qed.

(** X14: from 4 on the test always answers, for every tape and every
    number of iterations, as soon as the halving loop is given more
    iterations than [n] has bits.  It reads one draw per round, at most
    [iterations] in all, leaves the tape otherwise untouched, and an
    answer [True] has gone through every round. *)
Theorem prime_test_miller_rabin_answers
        (fuel : nat) (n iterations : Z) (r : rng) :
  4 <= n -> (Z.to_nat (Z.log2 n) < fuel)%nat ->
  exists judgment draws,
    prime_test_miller_rabin fuel n iterations r =
      Ok (judgment, {| tape := tape r; cursor := cursor r + draws |}) /\
    (draws <= Z.to_nat iterations)%nat /\
    (judgment = true -> draws = Z.to_nat iterations).
Proof.
  intros Hn Hfuel. unfold prime_test_miller_rabin.
  now apply miller_rabin_rounds_draws.
Qed.

Lemma prime_test_miller_rabin_answers_witness :
  exists judgment draws,
    prime_test_miller_rabin 5 15 10 tape0 =
      Ok (judgment, {| tape := tape tape0; cursor := cursor tape0 + draws |}) /\
    (draws <= Z.to_nat 10)%nat /\
    (judgment = true -> draws = Z.to_nat 10).
Proof.
  apply (prime_test_miller_rabin_answers 5 15 10 tape0); [lia | cbn; lia].
Defined.

Lemma divide_small (p z : Z) : (p | z) -> - p < z < p -> z = 0.
Proof.
  intros [k Hk] Hz. subst z. destruct (Z.eq_dec k 0) as [-> | Hk]; [lia | nia].
Qed.

Lemma square_root_of_one (p x : Z) :
  Z.prime p -> 0 <= x < p -> (x * x) mod p = 1 -> x = 1 \/ x = p - 1.
Proof.
  intros Hp Hx Hsq. pose proof (Z.prime_ge_2 p Hp) as Hp2.
  assert (Hdiv : (p | (x - 1) * (x + 1))).
  { apply Z.mod_divide; [lia |].
    replace ((x - 1) * (x + 1)) with (x * x - 1) by ring.
    apply Z.cong_iff_0. rewrite Hsq. symmetry. apply Z.mod_1_l. lia. }
  apply Z.divide_prime_mul in Hdiv; [| exact Hp].
  destruct Hdiv as [Hd | Hd].
  - left.
    destruct (Z.eq_dec x 0) as [-> | Hx0].
    + apply Z.divide_opp_r in Hd. cbn in Hd.
      apply Z.divide_1_r in Hd. lia.
    + pose proof (divide_small p (x - 1) Hd ltac:(lia)). lia.
  - right. destruct Hd as [k Hk].
    assert (k = 1) by nia. lia.
Qed.

Lemma halving_loop_prime (a n : Z) :
  Z.prime n -> 2 < n ->
  forall fuel k,
    0 < k -> a ^ k mod n = 1 -> (Z.to_nat (Z.log2 k) < fuel)%nat ->
    halving_loop fuel a n k = Ok true.
Proof.
  intros Hp Hn. induction fuel as [| fuel IH]; intros k Hk Hone Hfuel; [lia |].
  cbn [halving_loop].
  destruct (Z.eqb_spec (k mod 2) 0) as [He | _]; [| reflexivity].
  assert (Hk2 : 2 <= k).
  { destruct (Z.eq_dec k 1) as [-> | ?]; [discriminate He | lia]. }
  assert (Hhalf : 0 < k / 2) by (apply Z.div_str_pos; lia).
  rewrite powers_nonneg by lia. cbn [bind].
  assert (Hsq : (a ^ (k / 2) mod n * (a ^ (k / 2) mod n)) mod n = 1).
  { rewrite <- Z.mul_mod, <- Z.pow_add_r by lia.
    replace (k / 2 + k / 2) with k; [exact Hone |].
    rewrite (Z.div_mod k 2) at 1 by lia. lia. }
  pose proof (Z.mod_pos_bound (a ^ (k / 2)) n ltac:(lia)) as Hx.
  destruct (square_root_of_one n _ Hp Hx Hsq) as [E | E]; rewrite E.
  - destruct (Z.eqb_spec 1 (n - 1)); [lia |]. cbn [Z.eqb negb].
    apply IH; [exact Hhalf | exact E |].
    pose proof (log2_half k Hk2). pose proof (Z.log2_nonneg (k / 2)). lia.
  - now rewrite Z.eqb_refl.
Qed.

Lemma miller_rabin_round_prime (fuel : nat) (n : Z) (r : rng) :
  Z.prime n -> 5 <= n -> (Z.to_nat (Z.log2 n) < fuel)%nat ->
  miller_rabin_round fuel n r = Ok (true, advance r).
Proof.
  intros Hp Hn Hfuel. unfold miller_rabin_round, bindR.
  destruct (get_random_int_between_ok 2 (n - 2) r ltac:(lia)) as [a Ea].
  pose proof (get_random_int_between_range _ _ _ _ _ Ea) as Ha.
  rewrite Ea. unfold lift.
  assert (Hfermat : a ^ (n - 1) mod n = 1).
  { apply Z.fermat_nz; [exact Hp |]. rewrite Z.mod_small by lia. lia. }
  rewrite powers_nonneg, Hfermat by lia. cbn [bind Z.eqb Pos.eqb negb].
  assert (Hlog : (Z.to_nat (Z.log2 (n - 1)) < fuel)%nat).
  { pose proof (Z.log2_le_mono (n - 1) n ltac:(lia)). lia. }
  now rewrite (halving_loop_prime a n Hp ltac:(lia) fuel (n - 1)
                 ltac:(lia) Hfermat Hlog).
Qed.

Lemma miller_rabin_rounds_prime (fuel : nat) (n : Z) :
  Z.prime n -> 5 <= n -> (Z.to_nat (Z.log2 n) < fuel)%nat ->
  forall rounds r,
    miller_rabin_rounds fuel n rounds r =
      Ok (true, {| tape := tape r; cursor := cursor r + rounds |}).
Proof.
  intros Hp Hn Hfuel.
  induction rounds as [| rounds IH]; intros r; cbn [miller_rabin_rounds].
  - unfold ret. rewrite Nat.add_0_r. now destruct r.
  - unfold bindR at 1. rewrite miller_rabin_round_prime by assumption.
    rewrite IH. cbn [advance tape cursor]. now rewrite Nat.add_succ_r.
Qed.

(** X15: the test never rejects a prime: for every prime from 5 on, every
    tape and every number of iterations the answer is [True], after one
    draw per iteration. *)
Theorem prime_test_miller_rabin_accepts_primes
        (fuel : nat) (n iterations : Z) (r : rng) :
  Z.prime n -> 5 <= n -> (Z.to_nat (Z.log2 n) < fuel)%nat ->
  prime_test_miller_rabin fuel n iterations r =
    Ok (true, {| tape := tape r; cursor := cursor r + Z.to_nat iterations |}).
Proof.
  intros Hp Hn Hfuel. unfold prime_test_miller_rabin.
  apply miller_rabin_rounds_prime; assumption.
Qed.

Lemma prime_test_miller_rabin_accepts_primes_witness :
  prime_test_miller_rabin 4 13 10 tape0 =
    Ok (true, {| tape := tape tape0; cursor := cursor tape0 + Z.to_nat 10 |}).
Proof.
  apply (prime_test_miller_rabin_accepts_primes 4 13 10 tape0).
  - apply trial_division_prime. reflexivity.
  - lia.
  - cbn. lia.
Defined.

(** The converse fails: on the witness 9 the even number 28 passes a
    round, since [9 ^ 27 mod 28 = 1] and 27 is odd. *)
Example prime_test_miller_rabin_accepts_28 :
  prime_test_miller_rabin 5 28 1 {| tape := fun _ => 7; cursor := 0 |} =
    Ok (true, {| tape := fun _ => 7; cursor := 1 |}).
Proof. reflexivity. Qed.

(** ** The generator from two digits on *)

Lemma get_random_int_between_advances (a b v : Z) (r r' : rng) :
  get_random_int_between a b r = Ok (v, r') -> r' = advance r.
Proof.
  unfold get_random_int_between. destruct (b <? a); [discriminate |].
  intros E. now inversion E.
Qed.

Lemma random_choice_advances (r r' : rng) (x : Z) :
  random_choice [1; 3; 7; 9] r = Ok (x, r') -> r' = advance r.
Proof.
  unfold random_choice.
  destruct (py_getitem _ _) as [y | |]; cbn [bind]; try discriminate.
  intros E. now inversion E.
Qed.

Lemma lift_keeps_state {A : Type} (m : result A) (r r' : rng) (a : A) :
  lift m r = Ok (a, r') -> r' = r.
Proof.
  unfold lift. destruct m; cbn [bind]; try discriminate.
  intros E. now inversion E.
Qed.

Lemma draw_middle_digits_reads_on (count : nat) :
  forall r middle r',
    draw_middle_digits count r = Ok (middle, r') ->
    tape r' = tape r /\ (cursor r <= cursor r')%nat.
Proof.
  induction count as [| count IH]; intros r middle r' E.
  - cbn in E. inversion E; subst. split; [reflexivity | lia].
  - cbn [draw_middle_digits] in E. unfold bindR at 1 in E.
    destruct (get_random_int_between 0 9 r) as [[d r1] | |] eqn:Ed;
      try discriminate.
    unfold bindR at 1 in E.
    destruct (draw_middle_digits count r1) as [[rest r2] | |] eqn:Er;
      try discriminate.
    unfold ret in E. inversion E; subst.
    apply get_random_int_between_advances in Ed. subst r1.
    destruct (IH _ _ _ Er) as [Ht Hc]. cbn [advance tape cursor] in *.
    split; [exact Ht | lia].
Qed.

Lemma draw_candidate_reads_on (n : Z) (r r' : rng) (v : Z) :
  draw_candidate n r = Ok (v, r') ->
  tape r' = tape r /\ (cursor r <= cursor r')%nat.
Proof.
  unfold draw_candidate. intros E. unfold bindR at 1 in E.
  destruct (get_random_int_between 1 9 r) as [[d r1] | |] eqn:Ed;
    try discriminate.
  unfold bindR at 1 in E.
  destruct (draw_middle_digits (Z.to_nat (n - 2)) r1) as [[middle r2] | |] eqn:Em;
    try discriminate.
  unfold bindR at 1 in E.
  destruct (random_choice [1; 3; 7; 9] r2) as [[last r3] | |] eqn:El;
    try discriminate.
  apply lift_keeps_state in E. subst r3.
  apply get_random_int_between_advances in Ed. subst r1.
  apply random_choice_advances in El. subst r'.
  destruct (draw_middle_digits_reads_on _ _ _ _ Em) as [Ht Hc].
  cbn [advance tape cursor] in *. split; [exact Ht | lia].
Qed.

Lemma miller_rabin_rounds_reads_on (fuel : nat) (n : Z) (rounds : nat) :
  forall r judgment r',
    miller_rabin_rounds fuel n rounds r = Ok (judgment, r') ->
    tape r' = tape r /\ (cursor r <= cursor r')%nat.
Proof.
  induction rounds as [| rounds IH]; intros r judgment r' E.
  - cbn in E. inversion E; subst. split; [reflexivity | lia].
  - cbn [miller_rabin_rounds] in E. unfold bindR at 1 in E.
    destruct (miller_rabin_round fuel n r) as [[passed r1] | |] eqn:Er;
      try discriminate.
    assert (Hr1 : r1 = advance r).
    { unfold miller_rabin_round, bindR in Er.
      destruct (get_random_int_between 2 (n - 2) r) as [[a r0] | |] eqn:Ea;
        try discriminate.
      apply get_random_int_between_advances in Ea. subst r0.
      now apply lift_keeps_state in Er. }
    subst r1. destruct passed.
    + destruct (IH _ _ _ E) as [Ht Hc]. cbn [advance tape cursor] in *.
      split; [exact Ht | lia].
    + unfold ret in E. inversion E; subst. cbn [advance tape cursor].
      split; [reflexivity | lia].
Qed.

(** The value returned is the candidate of the last attempt, drawn from
    the same tape further on, and the returned state is the one in which
    the ten rounds on that candidate ended. *)
Lemma generate_attempts_returning (fuel attempts : nat) (n : Z) :
  forall r r' v,
    generate_attempts fuel attempts n r = Ok (v, r') ->
    exists r0 r1,
      (tape r0 = tape r /\ (cursor r <= cursor r0)%nat) /\
      draw_candidate n r0 = Ok (v, r1) /\
      prime_test_miller_rabin fuel v 10 r1 = Ok (true, r').
Proof.
  induction attempts as [| attempts IH]; intros r r' v E; [discriminate |].
  cbn [generate_attempts] in E. unfold bindR at 1 in E.
  destruct (draw_candidate n r) as [[prime r1] | |] eqn:Ec; try discriminate.
  unfold bindR at 1 in E.
  destruct (prime_test_miller_rabin fuel prime 10 r1)
    as [[passed r2] | |] eqn:Et; try discriminate.
  destruct passed.
  - unfold ret in E. inversion E; subst. exists r, r1.
    repeat split; try assumption. lia.
  - destruct (IH _ _ _ E) as (r0 & r1' & [Ht Hc] & Hd & Hp).
    exists r0, r1'. repeat split; try assumption.
    + destruct (draw_candidate_reads_on _ _ _ _ Ec) as [Ht1 _].
      destruct (miller_rabin_rounds_reads_on _ _ _ _ _ _ Et) as [Ht2 _].
      congruence.
    + destruct (draw_candidate_reads_on _ _ _ _ Ec) as [_ Hc1].
      destruct (miller_rabin_rounds_reads_on _ _ _ _ _ _ Et) as [_ Hc2].
      lia.
Qed.

(** X16: for a requested width of at least 2, whatever the generator
    returns has exactly that many decimal digits, is odd and not a
    multiple of 5, and is the candidate of the returning attempt: it was
    drawn further on the same tape, the ten rounds of the test were run on
    it from the state the draw left, they answered [True], and the state
    returned is the one they ended in. *)
Theorem generate_n_digit_prime_width
        (fuel : nat) (n : Z) (r r' : rng) (v : Z) :
  2 <= n ->
  generate_n_digit_prime fuel n r = Ok (v, r') ->
  10 ^ (n - 1) <= v < 10 ^ n /\
  v mod 2 = 1 /\ v mod 5 <> 0 /\
  (exists r0 r1,
      (tape r0 = tape r /\ (cursor r <= cursor r0)%nat) /\
      draw_candidate n r0 = Ok (v, r1) /\
      prime_test_miller_rabin fuel v 10 r1 = Ok (true, r')).
Proof.
  intros Hn E.
  destruct (generate_n_digit_prime_exact fuel n r r' v Hn E)
    as (Hb & _ & Hl & _).
  split; [exact Hb |].
  assert (H2 : v mod 2 = (v mod 10) mod 2).
  { symmetry. apply Z.mod_mod_divide. now exists 5. }
  assert (H5 : v mod 5 = (v mod 10) mod 5).
  { symmetry. apply Z.mod_mod_divide. now exists 2. }
  unfold generate_n_digit_prime in E.
  pose proof (generate_attempts_returning _ _ _ _ _ _ E) as Hrun.
  rewrite H2, H5. cbn [In] in Hl.
  destruct Hl as [<- | [<- | [<- | [<- | []]]]]; repeat split;
    try discriminate; exact Hrun.
Qed.

Lemma generate_n_digit_prime_width_witness :
  10 ^ (2 - 1) <= 11 < 10 ^ 2 /\
  11 mod 2 = 1 /\ 11 mod 5 <> 0 /\
  (exists r0 r1,
      (tape r0 = tape tape0 /\ (cursor tape0 <= cursor r0)%nat) /\
      draw_candidate 2 r0 = Ok (11, r1) /\
      prime_test_miller_rabin 1 11 10 r1 =
        Ok (true, {| tape := tape tape0; cursor := 12 |})).
Proof.
  apply (generate_n_digit_prime_width
           1 2 tape0 {| tape := tape tape0; cursor := 12 |} 11);
    [lia | reflexivity].
Defined.

Lemma draw_middle_digits_ok (count : nat) (r : rng) :
  exists middle r', draw_middle_digits count r = Ok (middle, r').
Proof.
  revert r. induction count as [| count IH]; intros r.
  - now exists [], r.
  - cbn [draw_middle_digits]. unfold bindR at 1.
    destruct (get_random_int_between_ok 0 9 r ltac:(lia)) as [d Ed].
    rewrite Ed. unfold bindR at 1.
    destruct (IH (advance r)) as (rest & r' & Er). rewrite Er.
    now exists (py_str d :: rest), r'.
Qed.

Lemma random_choice_ok (r : rng) :
  exists x, random_choice [1; 3; 7; 9] r = Ok (x, advance r).
Proof.
  unfold random_choice.
  change (Z.of_nat (List.length [1; 3; 7; 9])) with 4.
  pose proof (Z.mod_pos_bound (raw_draw r) 4 ltac:(lia)) as Hi.
  assert (Hcases : raw_draw r mod 4 = 0 \/ raw_draw r mod 4 = 1 \/
                   raw_draw r mod 4 = 2 \/ raw_draw r mod 4 = 3) by lia.
  destruct Hcases as [-> | [-> | [-> | ->]]]; cbn; eexists; reflexivity.
Qed.

Lemma draw_candidate_ok (n : Z) (r : rng) :
  exists v r', draw_candidate n r = Ok (v, r').
Proof.
  unfold draw_candidate. unfold bindR at 1.
  destruct (get_random_int_between_ok 1 9 r ltac:(lia)) as [d Ed].
  pose proof (get_random_int_between_range _ _ _ _ _ Ed) as Hd.
  rewrite Ed. unfold bindR at 1.
  destruct (draw_middle_digits_ok (Z.to_nat (n - 2)) (advance r))
    as (middle & r1 & Em).
  rewrite Em. unfold bindR at 1.
  destruct (random_choice_ok r1) as [last El]. rewrite El.
  pose proof (random_choice_last_digit _ _ _ El) as Hlast.
  destruct (py_str_digit d ltac:(lia)) as (c & Ec & Hc).
  destruct (py_str_digit last) as (cl & Ecl & Hcl).
  { cbn in Hlast. lia. }
  destruct (draw_middle_digits_value _ _ _ _ Em d (py_str last))
    as (acc & Eacc & _).
  rewrite Ec. cbn [String.append]. unfold lift, py_int.
  cbn [int_of_digits]. rewrite Hc. cbn [Z.mul Z.add].
  rewrite Eacc, Ecl. cbn [int_of_digits]. rewrite Hcl. cbn [bind].
  now eexists _, _.
Qed.

Lemma generate_attempts_no_exception (fuel : nat) (n : Z) :
  (Z.to_nat (Z.log2 (10 ^ Z.max n 2)) < fuel)%nat ->
  forall attempts r e, generate_attempts fuel attempts n r <> Raise e.
Proof.
  intros Hfuel. induction attempts as [| attempts IH]; intros r e;
    [discriminate |].
  cbn [generate_attempts]. unfold bindR at 1.
  destruct (draw_candidate_ok n r) as (v & r1 & Ec). rewrite Ec.
  destruct (draw_candidate_shape _ _ _ _ Ec) as [Hb _]. cbv zeta in Hb.
  assert (Hw : 10 <= 10 ^ (Z.max n 2 - 1)).
  { change 10 with (10 ^ 1) at 1. apply Z.pow_le_mono_r; lia. }
  unfold bindR at 1.
  destruct (prime_test_miller_rabin_total fuel v 10 r1) as (b & r2 & Et).
  - lia.
  - pose proof (Z.log2_le_mono v (10 ^ Z.max n 2) ltac:(lia)). lia.
  - rewrite Et. destruct b; [discriminate | apply IH].
Qed.

(** X17: the generator never raises: every candidate it builds parses as
    an integer of at least two digits, which the primality test accepts
    as input, so a run either returns a number or is still looking when
    the bound on the attempts is reached. *)
Theorem generate_n_digit_prime_no_exception
        (fuel : nat) (n : Z) (r : rng) (e : exn) :
  (Z.to_nat (Z.log2 (10 ^ Z.max n 2)) < fuel)%nat ->
  generate_n_digit_prime fuel n r <> Raise e.
Proof.
  intros Hfuel. unfold generate_n_digit_prime.
  now apply generate_attempts_no_exception.
Qed.

Lemma generate_n_digit_prime_no_exception_witness :
  generate_n_digit_prime 14 4 tape0 <> Raise ValueError.
Proof.
  apply (generate_n_digit_prime_no_exception 14 4 tape0 ValueError).
  vm_compute. lia.
Defined.

(** X18: a candidate that is prime is returned at once: when the first
    candidate drawn is a prime, the generator answers with it after the
    ten draws of the test. *)
Theorem generate_n_digit_prime_returns_prime
        (fuel : nat) (n : Z) (r r1 : rng) (v : Z) :
  draw_candidate n r = Ok (v, r1) ->
  Z.prime v ->
  (Z.to_nat (Z.log2 v) < fuel)%nat ->
  generate_n_digit_prime fuel n r =
    Ok (v, {| tape := tape r1; cursor := cursor r1 + 10 |}).
Proof.
  intros Ec Hp Hfuel.
  destruct (draw_candidate_shape _ _ _ _ Ec) as [Hb _]. cbv zeta in Hb.
  assert (Hw : 10 <= 10 ^ (Z.max n 2 - 1)).
  { change 10 with (10 ^ 1) at 1. apply Z.pow_le_mono_r; lia. }
  unfold generate_n_digit_prime.
  destruct fuel as [| fuel]; [lia |].
  cbn [generate_attempts]. unfold bindR at 1. rewrite Ec.
  unfold bindR at 1.
  unfold prime_test_miller_rabin.
  now rewrite miller_rabin_rounds_prime by (assumption || lia).
Qed.

Lemma generate_n_digit_prime_returns_prime_witness :
  generate_n_digit_prime 4 2 tape0 =
    Ok (11, {| tape := tape tape0; cursor := 2 + 10 |}).
Proof.
  apply (generate_n_digit_prime_returns_prime
           4 2 tape0 {| tape := tape tape0; cursor := 2 |} 11).
  - reflexivity.
  - apply trial_division_prime. reflexivity.
  - cbn. lia.
Defined.

(** ** The demonstration, from the primes on *)

Lemma read_public_key_accepts (keys : list Z) (phi e : Z) :
  read_public_key keys phi = Ok e -> In e keys /\ euclid_gcd e phi = 1.
Proof.
  induction keys as [| k keys IH]; [discriminate |].
  cbn [read_public_key]. destruct (Z.eqb_spec (euclid_gcd k phi) 1) as [E | _].
  - intros H. inversion H; subst. split; [now left | exact E].
  - intros H. destruct (IH H). split; [now right | assumption].
Qed.

(** X19: for a positive totient the prompt loop accepts exactly the keys
    coprime to it, negative ones included: it returns the first such key
    of the input, and runs out of input ([EOFError]) when there is
    none. *)
Theorem read_public_key_first_coprime (keys : list Z) (phi : Z) :
  0 < phi ->
  read_public_key keys phi =
  match find (fun e => Z.gcd e phi =? 1) keys with
  | Some e => Ok e
  | None => Raise EOFError
  end.
Proof.
  intros Hphi. induction keys as [| k keys IH]; [reflexivity |].
  cbn [read_public_key find].
  rewrite euclid_gcd_pos_divisor by assumption.
  destruct (Z.gcd k phi =? 1); [reflexivity | exact IH].
Qed.

Lemma read_public_key_first_coprime_witness :
  read_public_key [4; -6; -7; 17] 3120 =
  match find (fun e => Z.gcd e 3120 =? 1) [4; -6; -7; 17] with
  | Some e => Ok e
  | None => Raise EOFError
  end.
Proof.
  apply (read_public_key_first_coprime [4; -6; -7; 17] 3120). lia.
Defined.

Lemma private_key_inverse (e phi : Z) :
  2 <= phi -> euclid_gcd e phi = 1 ->
  (e * snd (fst (extended_euclid_gcd e phi))) mod phi = 1.
Proof.
  intros Hphi Hg.
  destruct (extended_euclid_gcd e phi) as [[g s] t] eqn:E. cbn [fst snd].
  pose proof (extended_euclid_gcd_bezout _ _ _ _ _ E) as Hbz.
  pose proof (extended_euclid_gcd_fst e phi) as Hfst.
  rewrite E in Hfst. cbn in Hfst.
  replace (e * s) with (1 + (- t) * phi) by lia.
  rewrite Z.mod_add by lia. apply Z.mod_1_l. lia.
Qed.

(** X20: the private exponent that [rsa] takes from
    [extended_euclid_gcd] is an inverse of the accepted public key modulo
    the totient, although it is not reduced and can be negative. *)
Theorem private_key_is_inverse (keys : list Z) (phi e : Z) :
  2 <= phi ->
  read_public_key keys phi = Ok e ->
  exists g d t,
    extended_euclid_gcd e phi = (g, d, t) /\
    g = 1 /\ (e * d) mod phi = 1.
Proof.
  intros Hphi Hkey. apply read_public_key_accepts in Hkey as [_ Hg].
  pose proof (private_key_inverse e phi Hphi Hg) as Hinv.
  pose proof (extended_euclid_gcd_fst e phi) as Hfst.
  destruct (extended_euclid_gcd e phi) as [[g d] t]. cbn in *.
  exists g, d, t. repeat split; [congruence | exact Hinv].
Qed.

Lemma private_key_is_inverse_witness :
  exists g d t,
    extended_euclid_gcd 17 3120 = (g, d, t) /\
    g = 1 /\ (17 * d) mod 3120 = 1.
Proof.
  apply (private_key_is_inverse [4; 17] 3120 17); [lia | reflexivity].
Defined.

Lemma encrypt_decrypt_ok (p q e d M : Z) :
  Z.prime p -> Z.prime q -> p <> q ->
  (e * d) mod euler_totient p q = 1 ->
  0 <= M < p * q ->
  Z.gcd M (p * q) = 1 \/ (0 < e /\ 0 < d) ->
  exists C, powers M e (p * q) = Ok C /\ powers C d (p * q) = Ok M.
Proof.
  intros Hp Hq Hpq Hed HM Hcase.
  destruct (rsa_modulus_bounds p q Hp Hq Hpq) as (Hp2 & Hq2 & Hn & Hphi).
  destruct Hcase as [Hg | [He Hd]].
  - pose proof (modular_inverse_correct M (p * q) Hn Hg) as Hy.
    pose proof (unit_power_inverse M _ e (p * q) Hn Hy) as HC.
    pose proof (inverse_coprime (p * q) _ _ Hn HC) as HgC.
    eexists. split; [apply powers_coprime; lia || assumption |].
    rewrite powers_coprime by (lia || assumption). f_equal.
    rewrite (unit_power_congr _ _ _ (unit_power (modular_inverse M (p * q)) M
                                                e (p * q)) d (p * q) eq_refl).
    + rewrite unit_power_compose.
      rewrite (unit_power_one_mod_phi p q Hp Hq Hpq) by assumption.
      now apply Z.mod_small.
    + eapply inverse_unique; [lia | | exact HC].
      now apply modular_inverse_correct.
  - eexists. split; [apply powers_nonneg; lia |].
    rewrite powers_nonneg by lia. f_equal.
    rewrite Z.mod_pow_l, <- Z.pow_mul_r by lia.
    rewrite (rsa_exponent p q Hp Hq Hpq) by (assumption || nia).
    now apply Z.mod_small.
Qed.

Lemma convert_to_bearcatii_positions (message : string) (positions : list Z) :
  convert_to_bearcatii message = Ok positions ->
  Forall (fun i => 1 <= i <= 26) positions /\
  List.length positions = String.length message /\
  convert_bearcatii_to_string positions = Ok message.
Proof.
  intros E. destruct (forallb is_character (chars_of message)) eqn:Hall.
  - destruct (convert_to_bearcatii_ok message Hall) as (l & El & Hl & Hlen & Eb).
    rewrite El in E. inversion E; subst.
    repeat split; try assumption.
    unfold convert_bearcatii_to_string. rewrite Eb. cbn [bind].
    now rewrite concat_chars_of.
  - rewrite (convert_to_bearcatii_unknown message Hall) in E. discriminate.
Qed.

(** X21: the demonstration recovers the message.  For two distinct primes,
    an accepted key, and a message over the alphabet whose encoding is
    below [p * q], [rsa] prints back exactly the message it was given,
    provided the encoding is coprime to [p * q] or the key and the exponent
    derived from it are both positive. *)
Theorem rsa_with_primes_round_trip
        (fuel : nat) (p q : Z) (keys : list Z) (e : Z)
        (message : string) (positions : list Z) :
  Z.prime p -> Z.prime q -> p <> q ->
  read_public_key keys (euler_totient p q) = Ok e ->
  convert_to_bearcatii message = Ok positions ->
  horner_eval positions radix < p * q ->
  (String.length message < fuel)%nat ->
  Z.gcd (horner_eval positions radix) (p * q) = 1 \/
  (0 < e /\ 0 < snd (fst (extended_euclid_gcd e (euler_totient p q)))) ->
  exists C,
    rsa_with_primes fuel p q keys message =
    Ok {| shown_p := p; shown_q := q; shown_n := p * q;
          shown_M := message; shown_C := C; shown_P := message |}.
Proof.
  intros Hp Hq Hpq Hkey Hconv Hfit Hfuel Hcase.
  destruct (rsa_modulus_bounds p q Hp Hq Hpq) as (Hp2 & Hq2 & Hn & Hphi).
  destruct (read_public_key_accepts _ _ _ Hkey) as [_ Hg].
  pose proof (private_key_inverse e _ Hphi Hg) as Hinv.
  destruct (convert_to_bearcatii_positions _ _ Hconv) as (Hpos & Hlen & Hback).
  assert (HM : 0 <= horner_eval positions radix).
  { apply horner_eval_nonneg; [cbv; discriminate |].
    eapply Forall_impl; [| exact Hpos]. cbn. intros; lia. }
  destruct (encrypt_decrypt_ok p q e _ _ Hp Hq Hpq Hinv (conj HM Hfit) Hcase)
    as (C & HC & HD).
  exists C. unfold rsa_with_primes. rewrite Hkey, Hconv. cbn [bind].
  change (len_characters + 1) with radix. rewrite HC. cbn [bind].
  destruct (extended_euclid_gcd e (euler_totient p q)) as [[g d] t].
  cbn [fst snd] in HD. rewrite HD. cbn [bind].
  unfold convert_to_base_n. rewrite convert_loop_horner.
  - rewrite app_nil_r. cbn [bind]. rewrite Hback. reflexivity.
  - eapply Forall_impl; [| exact Hpos]. cbn. change radix with 27. intros; lia.
  - now rewrite Hlen.
Qed.

Lemma rsa_with_primes_round_trip_witness :
  exists C,
    rsa_with_primes 3 61 53 [4; 17] "HI" =
    Ok {| shown_p := 61; shown_q := 53; shown_n := 61 * 53;
          shown_M := "HI"; shown_C := C; shown_P := "HI" |}.
Proof.
  apply (rsa_with_primes_round_trip 3 61 53 [4; 17] 17 "HI" [8; 9]).
  - apply trial_division_prime. reflexivity.
  - apply trial_division_prime. reflexivity.
  - discriminate.
  - reflexivity.
  - reflexivity.
  - reflexivity.
  - cbn. lia.
  - left. reflexivity.
Defined.

(** X22: the demonstration stops on [ValueError] when the derived exponent
    is negative and the message shares a factor with the modulus: the
    exponent is used as it comes from [extended_euclid_gcd], so decryption
    asks for an inverse that does not exist. *)
Theorem rsa_with_primes_negative_key
        (fuel : nat) (p q : Z) (keys : list Z) (e : Z)
        (message : string) (positions : list Z) :
  Z.prime p -> Z.prime q -> p <> q ->
  read_public_key keys (euler_totient p q) = Ok e ->
  0 < e ->
  snd (fst (extended_euclid_gcd e (euler_totient p q))) < 0 ->
  convert_to_bearcatii message = Ok positions ->
  Z.gcd (horner_eval positions radix) (p * q) <> 1 ->
  rsa_with_primes fuel p q keys message = Raise ValueError.
Proof.
  intros Hp Hq Hpq Hkey He Hd Hconv Hg.
  destruct (rsa_modulus_bounds p q Hp Hq Hpq) as (Hp2 & Hq2 & Hn & Hphi).
  unfold rsa_with_primes. rewrite Hkey, Hconv. cbn [bind].
  change (len_characters + 1) with radix.
  rewrite powers_nonneg by lia. cbn [bind].
  destruct (extended_euclid_gcd e (euler_totient p q)) as [[g d] t].
  cbn [fst snd] in Hd.
  destruct (shared_factor p q Hp Hq Hpq _ Hg) as (r & Hr & Hrn & HrM).
  destruct (powers_negative_pos_modulus
              (horner_eval positions radix ^ e mod (p * q)) d (p * q))
    as [[_ E] | [Hone _]]; [lia | lia | now rewrite E |].
  pose proof (divide_power_residue r _ e (p * q) ltac:(lia) ltac:(lia) HrM Hrn)
    as Hdiv.
  rewrite Hone in Hdiv. apply Z.divide_1_r in Hdiv. lia.
Qed.

Lemma rsa_with_primes_negative_key_witness :
  rsa_with_primes 3 61 53 [17] "BG" = Raise ValueError.
Proof.
  apply (rsa_with_primes_negative_key 3 61 53 [17] 17 "BG" [2; 7]).
  - apply trial_division_prime. reflexivity.
  - apply trial_division_prime. reflexivity.
  - discriminate.
  - reflexivity.
  - lia.
  - vm_compute. reflexivity.
  - reflexivity.
  - vm_compute. discriminate.
Defined.

Lemma horner_eval_below_power (l : list Z) :
  Forall (fun i => 1 <= i <= 26) l ->
  horner_eval l radix < radix ^ Z.of_nat (List.length l).
Proof.
  change radix with 27.
  induction l as [| d l IH] using rev_ind; intros Hl; [cbn; lia |].
  apply Forall_app in Hl as [Hl Hd]. inversion Hd; subst.
  rewrite horner_eval_snoc, length_app, Nat.add_1_r, Nat2Z.inj_succ.
  rewrite Z.pow_succ_r by lia. specialize (IH Hl). lia.
Qed.

(** X23: every message of at most 26 symbols fits under the modulus of
    the demonstration: its encoding is below the product of any two
    numbers of [NUMBER_OF_DIGITS_IN_PRIME] digits. *)
Theorem message_fits_modulus (message : string) (positions : list Z) (p q : Z) :
  convert_to_bearcatii message = Ok positions ->
  (String.length message <= 26)%nat ->
  10 ^ (NUMBER_OF_DIGITS_IN_PRIME - 1) <= p ->
  10 ^ (NUMBER_OF_DIGITS_IN_PRIME - 1) <= q ->
  0 <= horner_eval positions radix < p * q.
Proof.
  intros Hconv Hlen Hp Hq.
  destruct (convert_to_bearcatii_positions _ _ Hconv) as (Hpos & Hl & _).
  split.
  - apply horner_eval_nonneg; [cbv; discriminate |].
    eapply Forall_impl; [| exact Hpos]. cbn. intros; lia.
  - pose proof (horner_eval_below_power positions Hpos) as Hlt.
    assert (Hpow : radix ^ Z.of_nat (List.length positions) <= radix ^ 26).
    { apply Z.pow_le_mono_r; [cbv; reflexivity | lia]. }
    assert (Hbig : radix ^ 26 < 10 ^ 19 * 10 ^ 19) by (vm_compute; reflexivity).
    change (10 ^ (NUMBER_OF_DIGITS_IN_PRIME - 1)) with (10 ^ 19) in Hp, Hq.
    assert (0 < 10 ^ 19) by (vm_compute; reflexivity).
    nia.
Qed.

Lemma message_fits_modulus_witness :
  0 <= horner_eval [8; 5; 12; 12; 15] radix <
  10000000000000000051 * 10000000000000000069.
Proof.
  apply (message_fits_modulus "HELLO" [8; 5; 12; 12; 15]).
  - reflexivity.
  - cbn. lia.
  - vm_compute. discriminate.
  - vm_compute. discriminate.
Defined.
